(** * HTTP-Ssak3: the recursive mirror crawl of [main.py]

    A shallow embedding of the persistent state store, the transfer
    dispatcher, the directory crawler and the run controller of
    [src/main.py], and the properties of the crawl stated over it.

    Conventions of the model.
    - URLs, paths and hrefs are [string]s; the two sets of the crawler are
      [gset string]; the JSON arrays of the state files are [list string].
    - The functions of [main.py] mutate shared sets and the disk.  The model
      threads one [State] through every call: the sets are the shared
      objects, so a callee's additions are visible to its caller.
    - Everything outside the program (the remote server, the [aria2c]
      subprocess, [urllib]) is a field of [Env].  A subprocess or a file
      transfer may answer differently each time it is tried, so these two are
      indexed by the time of the call.
    - The [print] calls of the loaders, the dispatcher and the crawler, and
      every external effect, are appended to the [trace] of the state, in
      program order.
    - Writes to the state files and [os.makedirs] are taken where they
      succeed, [urllib] where it returns, and the two state files at distinct
      paths; the [last_updated] member of a state file is not modelled. *)

From Stdlib Require Import Ascii ZArith Lia.
From stdpp Require Import base option list gmap sets strings.

(** ** Python string operations used by [main.py] *)

Module PyStr.

Definition slash : ascii := "/"%char.

(** [s.startswith(p)] *)
Fixpoint startswith (s p : string) : bool :=
  match p, s with
  | EmptyString, _ => true
  | String a p', String b s' => Ascii.eqb a b && startswith s' p'
  | String _ _, EmptyString => false
  end.

(** [s.endswith(suf)]: [s] equals [suf], or its tail ends with [suf]. *)
Fixpoint endswith (s suf : string) : bool :=
  String.eqb s suf ||
  match s with
  | EmptyString => false
  | String _ s' => endswith s' suf
  end.

(** [needle in hay] on strings. *)
Fixpoint contains (hay needle : string) : bool :=
  startswith hay needle ||
  match hay with
  | EmptyString => false
  | String _ hay' => contains hay' needle
  end.

(** [s.lstrip("/")] *)
Fixpoint lstrip_slash (s : string) : string :=
  match s with
  | String c s' => if Ascii.eqb c slash then lstrip_slash s' else s
  | EmptyString => EmptyString
  end.

(** [s.rstrip("/")] *)
Definition rstrip_slash (s : string) : string :=
  String.rev (lstrip_slash (String.rev s)).

(** [s.strip("/")] *)
Definition strip_slash (s : string) : string :=
  rstrip_slash (lstrip_slash s).

Definition lower_char (c : ascii) : ascii :=
  let n := nat_of_ascii c in
  if (65 <=? n) && (n <=? 90) then ascii_of_nat (n + 32) else c.

(** [s.lower()], on ASCII letters. *)
Fixpoint lower (s : string) : string :=
  match s with
  | EmptyString => EmptyString
  | String c s' => String (lower_char c) (lower s')
  end.

Fixpoint has_slash (s : string) : bool :=
  match s with
  | EmptyString => false
  | String c s' => Ascii.eqb c slash || has_slash s'
  end.

(** [os.path.basename(p)]: the text after the last ["/"]. *)
Fixpoint basename (p : string) : string :=
  match p with
  | EmptyString => EmptyString
  | String c p' =>
      if has_slash p' then basename p'
      else if Ascii.eqb c slash then p' else p
  end.

(** [os.path.join(a, b)] of [posixpath]. *)
Definition path_join (a b : string) : string :=
  if startswith b "/" then b
  else if String.eqb a "" || endswith a "/" then a +:+ b
  else a +:+ "/" +:+ b.

End PyStr.

(** ** Persistent state store *)

(** What the program finds at the path of a state file.  A readable file that
    holds a JSON object is [Holds d]: [d] maps a member name to its array of
    URL strings (the shape the program writes). *)
Inductive FileState : Type :=
  | Missing      (* [os.path.exists] is false *)
  | Unreadable   (* opening or reading raises [OSError] (= [IOError]) *)
  | NotUtf8      (* the bytes are not UTF-8: [f.read()] raises [UnicodeDecodeError] *)
  | NotJson      (* [orjson.loads] raises [JSONDecodeError] *)
  | NotObject    (* a JSON value that is no object: [data.get] raises [AttributeError] *)
  | Holds (d : gmap string (list string)).

Inductive Exn : Type :=
  | IOError
  | UnicodeDecodeError
  | JSONDecodeError
  | AttributeError.

Inductive result (A : Type) : Type :=
  | Ok (a : A)
  | Raise (e : Exn).
Arguments Ok {A} a.
Arguments Raise {A} e.

(** The messages of the [print] calls of the modelled functions. *)
Inductive Msg : Type :=
  | MLoaded (count : nat)                 (* "이전 방문 기록을 로드했습니다" *)
  | MLoadWarning (e : Exn)                (* "방문 기록 파일을 읽는 중 오류 발생" *)
  | MAttempt (url : string)               (* "파일 다운로드 시도" *)
  | MDownloadDone (url : string)          (* "다운로드 완료" *)
  | MAlreadyDone (name : string)          (* "건너뛰기 (이미 완료됨)" *)
  | MRawOutput (text : string)            (* [print(stdout_text)] *)
  | MAriaError (url stderr : string)      (* "aria2c 실행 중 오류 발생" *)
  | MException (url : string)             (* "예외 발생" *)
  | MMetalinkDone (filename : string)     (* ".metalink 파일 다운로드 완료" *)
  | MMetalinkFailed (url : string)        (* ".metalink 파일 다운로드 실패" *)
  | MDirSeen (url : string)               (* "이미 방문한 디렉토리입니다" *)
  | MUrlSeen (url : string)               (* "이미 방문한 URL입니다" *)
  | MExploring (url : string)             (* "디렉토리 탐색 중" *)
  | MUnreachable (url : string)           (* "URL에 접근할 수 없습니다" *)
  | MHttpError (url : string)             (* "HTTP 오류 발생" *)
  | MNoLinks (url : string)               (* "링크를 찾을 수 없습니다" *)
  | MOutOfScope (url : string)            (* "범위를 벗어난 URL입니다" *)
  | MFileSeen (url : string)              (* "이미 다운로드한 파일입니다" *)
  | MAllDone                              (* "모든 작업이 완료되었습니다" *)
  | MSaved (count : nat).                 (* "방문 기록이 저장되었습니다" *)

(** The body of the [try] of both loaders: open, read, [orjson.loads], then
    [data.get(member, [])]. *)
Definition read_member (member : string) (f : FileState)
  : result (list string) :=
  match f with
  | Missing => Raise IOError
  | Unreadable => Raise IOError
  | NotUtf8 => Raise UnicodeDecodeError
  | NotJson => Raise JSONDecodeError
  | NotObject => Raise AttributeError
  | Holds d => Ok (default [] (d !! member))
  end.

Definition path_exists (f : FileState) : bool :=
  match f with
  | Missing => false
  | _ => true
  end.

(** [load_visited_urls]: the set and the messages printed, or the exception
    that leaves the function.  Only [orjson.JSONDecodeError] and [IOError]
    are caught. *)
Definition load_visited_urls (f : FileState)
  : result (gset string * list Msg) :=
  if path_exists f then
    match read_member "visited_urls" f with
    | Ok l =>
        let visited_urls : gset string := list_to_set l in
        Ok (visited_urls, [MLoaded (size visited_urls)])
    | Raise JSONDecodeError => Ok (∅, [MLoadWarning JSONDecodeError])
    | Raise IOError => Ok (∅, [MLoadWarning IOError])
    | Raise e => Raise e
    end
  else Ok (∅, []).

(** The file [save_visited_urls] writes: [{"visited_urls": list(visited_urls)}]. *)
Definition visited_document (visited_urls : gset string) : FileState :=
  Holds {[ "visited_urls" := elements visited_urls ]}.

(** The loading half of [save_error_url]: [except Exception: pass] keeps
    [urls = []] whatever was raised. *)
Definition load_error_urls (f : FileState) : list string :=
  if path_exists f then
    match read_member "error_urls" f with
    | Ok l => l
    | Raise _ => []
    end
  else [].

(** [save_error_url]: the error file after the call. *)
Definition save_error_url (error_url : string) (f : FileState) : FileState :=
  let urls := load_error_urls f in
  let urls := if decide (error_url ∈ urls) then urls else urls ++ [error_url] in
  Holds {[ "error_urls" := urls ]}.

(** The collection held by an error file, as the next call reads it. *)
Definition error_entries (f : FileState) : list string := load_error_urls f.

(** Number of entries of [l] equal to [u]. *)
Definition occurrences (u : string) (l : list string) : nat :=
  length (filter (λ x, x = u) l).

(** ** The world outside the program *)

(** Outcome of [asyncio.create_subprocess_exec] followed by [communicate]:
    the process ran and exited, or an exception was raised on the way. *)
Inductive ProcResult : Type :=
  | Exited (returncode : Z) (stdout_text stderr_text : string)
  | LaunchFailed.

(** Outcome of the GET of an index page followed by the extraction of the
    anchors: the [href] of every [<a>] in document order ([None] where the
    attribute is absent), or one of the two handled failures. *)
Inductive FetchResult : Type :=
  | Page (hrefs : list (option string))
  | ClientError
  | OtherError.

Record Env : Type := {
  url_scheme : string → string;             (* [urlparse(href).scheme] *)
  urljoin : string → string → string;       (* [urllib.parse.urljoin] *)
  fetch_index : string → FetchResult;       (* the remote tree *)
  run_aria2c : nat → list string → ProcResult;  (* by time, then command *)
  get_file : nat → string → bool;           (* streaming GET and write, by time *)
  aria2c_installed : bool                   (* [check_aria2c_installed()] *)
}.

(** ** Program state *)

Inductive Event : Type :=
  | EPrint (m : Msg)
  | EMakedirs (path : string)
  | EGetIndex (url : string)
  | ESubprocess (command : list string)
  | EGetFile (url filename : string).

Record State : Type := {
  visited_urls : gset string;          (* the shared [visited_urls] set *)
  visited_directories : gset string;   (* the shared [visited_directories] set *)
  local_dirs : gset string;            (* directories [os.makedirs] was asked for *)
  visited_file : FileState;            (* the file at [visited_urls_file] *)
  error_file : FileState;              (* the file at [error_urls_file] *)
  trace : list Event                   (* effects so far, oldest first *)
}.

Definition emit (e : Event) (st : State) : State :=
  {| visited_urls := visited_urls st;
     visited_directories := visited_directories st;
     local_dirs := local_dirs st;
     visited_file := visited_file st;
     error_file := error_file st;
     trace := trace st ++ [e] |}.

Definition say (m : Msg) : State → State := emit (EPrint m).

(** The time an external call is made at: the number of effects before it. *)
Definition now (st : State) : nat := length (trace st).

(** [os.makedirs(path, exist_ok=True)] *)
Definition makedirs (path : string) (st : State) : State :=
  emit (EMakedirs path)
  {| visited_urls := visited_urls st;
     visited_directories := visited_directories st;
     local_dirs := {[ path ]} ∪ local_dirs st;
     visited_file := visited_file st;
     error_file := error_file st;
     trace := trace st |}.

(** [await save_error_url(url, error_urls_file)] *)
Definition record_error (url : string) (st : State) : State :=
  {| visited_urls := visited_urls st;
     visited_directories := visited_directories st;
     local_dirs := local_dirs st;
     visited_file := visited_file st;
     error_file := save_error_url url (error_file st);
     trace := trace st |}.

(** [visited_urls.add(url)] *)
Definition add_visited_url (url : string) (st : State) : State :=
  {| visited_urls := {[ url ]} ∪ visited_urls st;
     visited_directories := visited_directories st;
     local_dirs := local_dirs st;
     visited_file := visited_file st;
     error_file := error_file st;
     trace := trace st |}.

(** [visited_directories.add(url)] *)
Definition add_visited_directory (url : string) (st : State) : State :=
  {| visited_urls := visited_urls st;
     visited_directories := {[ url ]} ∪ visited_directories st;
     local_dirs := local_dirs st;
     visited_file := visited_file st;
     error_file := error_file st;
     trace := trace st |}.

(** [await save_visited_urls(visited_urls, visited_urls_file)] *)
Definition save_visited_urls (st : State) : State :=
  {| visited_urls := visited_urls st;
     visited_directories := visited_directories st;
     local_dirs := local_dirs st;
     visited_file := visited_document (visited_urls st);
     error_file := error_file st;
     trace := trace st |}.

(** ** Transfer dispatcher *)

Section Dispatcher.
Context (E : Env).

(** [download_file_with_aiohttp] *)
Definition download_file_with_aiohttp (file_url local_dir : string)
    (st : State) : bool * State :=
  let st := makedirs local_dir st in
  let local_filename := PyStr.path_join local_dir (PyStr.basename file_url) in
  let t := now st in
  let st := emit (EGetFile file_url local_filename) st in
  if get_file E t file_url then
    (true, say (MMetalinkDone local_filename) st)
  else
    (false, record_error file_url (say (MMetalinkFailed file_url) st)).

(** [["aria2c", "-c", "--dir", local_dir, *aria2_options, file_url]] *)
Definition aria2_command (file_url local_dir : string)
    (aria2_options : list string) : list string :=
  ["aria2c"; "-c"; "--dir"; local_dir] ++ aria2_options ++ [file_url].

(** [download_file_with_aria2] *)
Definition download_file_with_aria2 (file_url local_dir : string)
    (aria2_options : list string) (st : State) : bool * State :=
  let st := say (MAttempt file_url) st in
  if PyStr.endswith file_url ".metalink" then
    download_file_with_aiohttp file_url local_dir st
  else
    let command := aria2_command file_url local_dir aria2_options in
    let t := now st in
    let st := emit (ESubprocess command) st in
    match run_aria2c E t command with
    | Exited returncode stdout_text stderr_text =>
        if (returncode =? 0)%Z then
          if PyStr.contains (PyStr.lower stdout_text) "download completed" then
            (true, say (MDownloadDone file_url) st)
          else if PyStr.contains (PyStr.lower stdout_text)
                    "already been completed" then
            (true, say (MAlreadyDone (PyStr.basename file_url)) st)
          else
            (true, say (MRawOutput stdout_text) st)
        else
          (false, record_error file_url (say (MAriaError file_url stderr_text) st))
    | LaunchFailed =>
        (false, record_error file_url (say (MException file_url) st))
    end.

End Dispatcher.

(** ** Directory crawler *)

Section Crawler.
Context (E : Env) (base_sync_url : string) (aria2_options : list string).

(** The guard of the link loop that ends in [continue]:
    [not href or href.startswith("?") or href.startswith("../")
     or urlparse(href).scheme]. *)
Definition link_filtered (href : option string) : bool :=
  match href with
  | None => true
  | Some h =>
      String.eqb h ""
      || PyStr.startswith h "?"
      || PyStr.startswith h "../"
      || negb (String.eqb (url_scheme E h) "")
  end.

(** What the loop body does with a resolved link: the scope check, the
    self-link check, and the directory and file branches.  [recurse] is the
    recursive call [sync_mirror(next_url, next_local_path, ...)]. *)
Definition route_link (recurse : string → string → State → option State)
    (current_url local_path : string) (href next_url : string) (st : State)
    : option State :=
  if negb (PyStr.startswith next_url base_sync_url) then
    Some (say (MOutOfScope next_url) st)
  else if String.eqb next_url current_url then Some st
  else if PyStr.endswith href "/" then
    let normalized_next_url := PyStr.rstrip_slash next_url in
    if decide (normalized_next_url ∈ visited_directories st) then
      Some (say (MDirSeen next_url) st)
    else
      let next_local_path :=
        PyStr.path_join local_path (PyStr.strip_slash href) in
      recurse next_url next_local_path st
  else
    if decide (next_url ∈ visited_urls st) then
      Some (say (MFileSeen next_url) st)
    else
      let '(result, st) :=
        download_file_with_aria2 E next_url local_path aria2_options st in
      if result then Some (save_visited_urls (add_visited_url next_url st))
      else Some st.

(** One iteration of [for link in links]: the filter, the resolution of
    the href against the current URL, and the routing. *)
Definition process_link (recurse : string → string → State → option State)
    (current_url local_path : string) (href : option string) (st : State)
    : option State :=
  if link_filtered href then Some st
  else
    let h := default "" href in
    let next_url := urljoin E current_url h in
    route_link recurse current_url local_path h next_url st.

(** The loop [for link in links], in document order. *)
Fixpoint process_links (recurse : string → string → State → option State)
    (current_url local_path : string) (links : list (option string))
    (st : State) : option State :=
  match links with
  | [] => Some st
  | href :: rest =>
      match process_link recurse current_url local_path href st with
      | Some st' => process_links recurse current_url local_path rest st'
      | None => None
      end
  end.

(** [sync_mirror].  [fuel] bounds the depth of the recursion; [None] is
    "the bound was reached". *)
Fixpoint sync_mirror (fuel : nat) (current_url local_path : string)
    (st : State) : option State :=
  match fuel with
  | O => None
  | S fuel' =>
      let normalized_url := PyStr.rstrip_slash current_url in
      if decide (normalized_url ∈ visited_directories st) then
        Some (say (MDirSeen current_url) st)
      else
        let st := add_visited_directory normalized_url st in
        if decide (normalized_url ∈ visited_urls st) then
          Some (say (MUrlSeen current_url) st)
        else
          let st := say (MExploring current_url) st in
          let st := makedirs local_path st in
          let st := emit (EGetIndex current_url) st in
          match fetch_index E current_url with
          | ClientError => Some (say (MUnreachable current_url) st)
          | OtherError => Some (say (MHttpError current_url) st)
          | Page [] => Some (say (MNoLinks current_url) st)
          | Page links =>
              process_links (sync_mirror fuel') current_url local_path links st
          end
  end.

End Crawler.

(** ** Run controller *)

Record Disk : Type := {
  disk_visited : FileState;
  disk_errors : FileState;
  disk_dirs : gset string
}.

(** The state [async_main] hands to the first [sync_mirror]: the loaded set,
    and a fresh [visited_directories] (the [None] default). *)
Definition boot (d : Disk) (loaded : gset string) (msgs : list Msg) : State :=
  {| visited_urls := loaded;
     visited_directories := ∅;
     local_dirs := disk_dirs d;
     visited_file := disk_visited d;
     error_file := disk_errors d;
     trace := EPrint <$> msgs |}.

Definition disk_of (st : State) : Disk :=
  {| disk_visited := visited_file st;
     disk_errors := error_file st;
     disk_dirs := local_dirs st |}.

Inductive RunResult : Type :=
  | Finished (code : Z) (st : State)   (* the process exited with [code] *)
  | NoHelper                           (* [sys.exit(1)]: [aria2c] is missing *)
  | Crashed (e : Exn)                  (* uncaught exception *)
  | Unbounded.                         (* the recursion bound was reached *)

(** [target_base_url]: the base URL with a trailing slash enforced. *)
Definition target_base_url (base_url : string) : string :=
  if PyStr.endswith base_url "/" then base_url else base_url +:+ "/".

(** [async_main] *)
Definition async_main (E : Env) (fuel : nat) (base_url local_download_root : string)
    (aria2_options : list string) (d : Disk) : RunResult :=
  if negb (aria2c_installed E) then NoHelper
  else
    match load_visited_urls (disk_visited d) with
    | Raise e => Crashed e
    | Ok (loaded, msgs) =>
        let target := target_base_url base_url in
        match sync_mirror E target aria2_options fuel target
                local_download_root (boot d loaded msgs) with
        | None => Unbounded
        | Some st =>
            let st := save_visited_urls (say MAllDone st) in
            Finished 0 (say (MSaved (size (visited_urls st))) st)
        end
    end.

(** ** [urllib.parse], for the concrete worlds below *)

Module Urllib.

Definition is_alpha (c : ascii) : bool :=
  let n := nat_of_ascii c in
  ((65 <=? n) && (n <=? 90)) || ((97 <=? n) && (n <=? 122)).

Definition is_digit (c : ascii) : bool :=
  let n := nat_of_ascii c in (48 <=? n) && (n <=? 57).

(** [scheme_chars]: letters, digits and ["+-."]. *)
Definition is_scheme_char (c : ascii) : bool :=
  is_alpha c || is_digit c
  || Ascii.eqb c "+" || Ascii.eqb c "-" || Ascii.eqb c ".".

(** [url.lstrip(_WHATWG_C0_CONTROL_OR_SPACE)] *)
Fixpoint lstrip_c0 (s : string) : string :=
  match s with
  | String c s' => if nat_of_ascii c <=? 32 then lstrip_c0 s' else s
  | EmptyString => EmptyString
  end.

(** Removal of tab, carriage return and line feed. *)
Fixpoint remove_unsafe (s : string) : string :=
  match s with
  | String c s' =>
      let n := nat_of_ascii c in
      if (n =? 9) || (n =? 10) || (n =? 13) then remove_unsafe s'
      else String c (remove_unsafe s')
  | EmptyString => EmptyString
  end.

(** [url[:url.find(":")]], when there is a colon. *)
Fixpoint before_colon (s : string) : option string :=
  match s with
  | EmptyString => None
  | String c s' =>
      if Ascii.eqb c ":" then Some EmptyString
      else String c <$> before_colon s'
  end.

Fixpoint all_scheme_chars (s : string) : bool :=
  match s with
  | EmptyString => true
  | String c s' => is_scheme_char c && all_scheme_chars s'
  end.

(** [urlparse(url).scheme], after [urlsplit] of CPython 3.12: the text
    before the first colon, lower-cased, when it starts with a letter and
    consists of scheme characters; the empty string otherwise. *)
Definition scheme (url : string) : string :=
  match before_colon (remove_unsafe (lstrip_c0 url)) with
  | Some (String c _ as pre) =>
      if is_alpha c && all_scheme_chars pre then PyStr.lower pre else ""
  | _ => ""
  end.

Fixpoint until_slash (s : string) : string :=
  match s with
  | EmptyString => EmptyString
  | String c s' =>
      if Ascii.eqb c PyStr.slash then EmptyString else String c (until_slash s')
  end.

(** [scheme://netloc] of an absolute URL. *)
Fixpoint origin (s : string) : string :=
  match s with
  | EmptyString => EmptyString
  | String c s' =>
      match s' with
      | String c' rest =>
          if Ascii.eqb c PyStr.slash && Ascii.eqb c' PyStr.slash
          then "//" +:+ until_slash rest
          else String c (origin s')
      | EmptyString => s
      end
  end.

(** [urljoin(base, ref)] on the inputs of the worlds below: [base] is a
    directory URL [scheme://netloc/.../] and [ref] is an absolute path, or
    a relative path of plain segments (no ["."], [".."], empty segment,
    query or fragment).  There [urljoin] keeps an absolute path as the new
    path and appends a relative one to the base. *)
Definition join (base ref : string) : string :=
  if PyStr.startswith ref "/" then origin base +:+ ref else base +:+ ref.

End Urllib.

(** ** Concrete worlds *)

Module Sample.

(** An index tree with a sub-directory that links back to itself and to its
    parent: [http://h/b/] lists [a/], [x.iso], a sort control, the parent
    link and an absolute link; [http://h/b/a/] lists [y.iso], [/b/] and
    [/b/a/]. *)
Definition tree (url : string) : FetchResult :=
  if String.eqb url "http://h/b/" then
    Page [Some "?C=N;O=D"; Some "../"; Some "a/"; Some "x.iso";
          Some "http://h/b/z.iso"; None]
  else if String.eqb url "http://h/b/a/" then
    Page [Some "y.iso"; Some "/b/"; Some "/b/a/"]
  else ClientError.

(** A server on which every transfer succeeds. *)
Definition world : Env :=
  {| url_scheme := Urllib.scheme;
     urljoin := Urllib.join;
     fetch_index := tree;
     run_aria2c := λ _ _, Exited 0 "Download completed." "";
     get_file := λ _ _, true;
     aria2c_installed := true |}.

(** The same server with [aria2c] failing on every file. *)
Definition failing_world : Env :=
  {| url_scheme := Urllib.scheme;
     urljoin := Urllib.join;
     fetch_index := tree;
     run_aria2c := λ _ _, Exited 1 "" "connection refused";
     get_file := λ _ _, false;
     aria2c_installed := true |}.

Definition empty_disk : Disk :=
  {| disk_visited := Missing; disk_errors := Missing; disk_dirs := ∅ |}.

(** The state of a first run before the crawl starts. *)
Definition start : State := boot empty_disk ∅ [].

(** A tree in which the directory [http://h/b/a] is reachable under two
    URLs, [http://h/b/a//] (from [x/]) and [http://h/b/a/] (from the base),
    and in which [x] names both a file and a directory. *)
Definition aliased_tree (url : string) : FetchResult :=
  if String.eqb url "http://h/b/" then Page [Some "x/"; Some "x"; Some "a/"]
  else if String.eqb url "http://h/b/x/" then Page [Some "/b/a//"]
  else if String.eqb url "http://h/b/a//" then Page []
  else if String.eqb url "http://h/b/a/" then Page [Some "f.iso"]
  else ClientError.

Definition aliased_world : Env :=
  {| url_scheme := Urllib.scheme;
     urljoin := Urllib.join;
     fetch_index := aliased_tree;
     run_aria2c := λ _ _, Exited 0 "Download completed." "";
     get_file := λ _ _, true;
     aria2c_installed := true |}.

End Sample.

(** * Vocabulary of the properties *)

(** The filter as C5 words it: an href with a scheme is discarded only when
    the scheme differs from that of the current page. *)
Definition discarded_by_different_scheme (E : Env) (current_url : string)
    (href : option string) : bool :=
  match href with
  | None => true
  | Some h =>
      String.eqb h ""
      || PyStr.startswith h "?"
      || PyStr.startswith h "../"
      || (negb (String.eqb (url_scheme E h) "")
          && negb (String.eqb (url_scheme E h) (url_scheme E current_url)))
  end.

(** Within a run the two sets and the set of local directories only grow,
    and the trace is only extended. *)
Record grows (st st' : State) : Prop := Grows {
  grows_visited_urls : visited_urls st ⊆ visited_urls st';
  grows_visited_directories : visited_directories st ⊆ visited_directories st';
  grows_local_dirs : local_dirs st ⊆ local_dirs st';
  grows_trace : trace st `prefix_of` trace st'
}.

(** The recursive call only adds. *)
Definition recursion_grows
    (recurse : string → string → State → option State) : Prop :=
  ∀ url path st st', recurse url path st = Some st' → grows st st'.

(** The state in which the link loop of an entered directory starts. *)
Definition entered (current_url local_path : string) (st : State) : State :=
  emit (EGetIndex current_url)
    (makedirs local_path
       (say (MExploring current_url)
          (add_visited_directory (PyStr.rstrip_slash current_url) st))).

(** The URL a message is about, for the messages of the crawler and the
    dispatcher that name the URL of a directory or of a file; the message for
    a link out of scope is the only one about a URL that was not followed. *)
Definition message_url (m : Msg) : option string :=
  match m with
  | MAttempt url | MDownloadDone url | MAriaError url _ | MException url
  | MMetalinkFailed url | MDirSeen url | MUrlSeen url | MExploring url
  | MUnreachable url | MHttpError url | MNoLinks url | MFileSeen url =>
      Some url
  | _ => None
  end.

(** The URL an effect is about lies under the base scope: the URL of a
    message about a directory entered or skipped as visited or about a file
    transferred or skipped as visited, of the fetch of an index page, and of
    the subprocess and the streaming GET of the dispatcher. *)
Definition event_in_scope (base : string) (e : Event) : Prop :=
  match e with
  | EPrint m =>
      ∀ url, message_url m = Some url → PyStr.startswith url base = true
  | EGetIndex url => PyStr.startswith url base = true
  | ESubprocess command =>
      ∀ url, last command = Some url → PyStr.startswith url base = true
  | EGetFile url _ => PyStr.startswith url base = true
  | EMakedirs _ => True
  end.

(** [st'] extends the trace of [st] by effects that satisfy [P]. *)
Definition extends_by (P : Event → Prop) (st st' : State) : Prop :=
  ∃ evs, trace st' = trace st ++ evs ∧ Forall P evs.

(** [st'] extends the trace of [st] by effects in scope. *)
Definition in_scope_run (base : string) : State → State → Prop :=
  extends_by (event_in_scope base).

(** The recursive call on a URL in scope only has effects in scope. *)
Definition recursion_scoped (base_sync_url : string)
    (recurse : string → string → State → option State) : Prop :=
  ∀ url path st st',
    PyStr.startswith url base_sync_url = true →
    recurse url path st = Some st' → in_scope_run base_sync_url st st'.

(** [U] holds the normalized URL of every in-scope directory link of every
    index page of the remote tree. *)
Definition directory_links_within (E : Env) (base_sync_url : string)
    (U : gset string) : Prop :=
  ∀ current_url links h,
    fetch_index E current_url = Page links →
    Some h ∈ links →
    link_filtered E (Some h) = false →
    PyStr.startswith (urljoin E current_url h) base_sync_url = true →
    PyStr.endswith h "/" = true →
    PyStr.rstrip_slash (urljoin E current_url h) ∈ U.

(** Directories of [U] not yet visited. *)
Definition unvisited (U : gset string) (st : State) : nat :=
  size (U ∖ visited_directories st).

(** [recurse] returns on every new directory of [U], as long as at most [n]
    directories remain. *)
Definition recursion_returns (U : gset string) (n : nat)
    (recurse : string → string → State → option State) : Prop :=
  ∀ url path st,
    PyStr.rstrip_slash url ∈ U →
    PyStr.rstrip_slash url ∉ visited_directories st →
    unvisited U st ≤ n →
    ∃ st', recurse url path st = Some st'.

(** The two runs talk to the same server through the same library. *)
Record same_server (E1 E2 : Env) : Prop := SameServer {
  same_scheme : ∀ h, url_scheme E1 h = url_scheme E2 h;
  same_urljoin : ∀ base h, urljoin E1 base h = urljoin E2 base h;
  same_tree : ∀ url, fetch_index E1 url = fetch_index E2 url;
  same_helper : aria2c_installed E1 = aria2c_installed E2
}.

(** The dispatcher was invoked on [url]: its first statement printed. *)
Definition attempted (url : string) (st : State) : Prop :=
  EPrint (MAttempt url) ∈ trace st.

(** An effect other than the invocation of the dispatcher. *)
Definition not_attempt (e : Event) : Prop :=
  ∀ url, e ≠ EPrint (MAttempt url).

(** [st'] extends the trace of [st] without any transfer. *)
Definition quiet : State → State → Prop := extends_by not_attempt.

(** A state of the first run lies within what the run ends with: the
    Visited Set [V1], the Visited-Directories Set [D1], and every attempted
    URL recorded in [V1]. *)
Definition within_first_run (V1 D1 : gset string) (st : State) : Prop :=
  visited_urls st ⊆ V1
  ∧ visited_directories st ⊆ D1
  ∧ ∀ url, attempted url st → url ∈ V1.

(** A state of the second run shadows one of the first: same
    Visited-Directories Set, and the Visited Set loaded from the first. *)
Definition shadows (V1 : gset string) (st1 st2 : State) : Prop :=
  visited_directories st1 = visited_directories st2
  ∧ visited_urls st2 = V1.

(** The second run follows the recursion of the first. *)
Definition recursion_shadowed (V1 D1 : gset string)
    (recurse1 recurse2 : string → string → State → option State) : Prop :=
  ∀ url path st1 st1' st2,
    recurse1 url path st1 = Some st1' →
    within_first_run V1 D1 st1' →
    shadows V1 st1 st2 →
    ∃ st2', recurse2 url path st2 = Some st2'
            ∧ shadows V1 st1' st2' ∧ quiet st2 st2'.

(** The state a run ends with ([Sample.start] when it does not end). *)
Definition final_state (r : RunResult) : State :=
  match r with
  | Finished _ st => st
  | _ => Sample.start
  end.

(** The normalized URLs of the index pages fetched by a list of effects. *)
Definition fetched (evs : list Event) : list string :=
  omap (λ e, match e with
             | EGetIndex url => Some (PyStr.rstrip_slash url)
             | _ => None
             end) evs.

(** An effect that is neither the invocation of the dispatcher nor the fetch
    of an index page. *)
Definition plain (e : Event) : Prop :=
  match e with
  | EPrint (MAttempt _) => False
  | EGetIndex _ => False
  | _ => True
  end.

(** The visited file holds the Visited Set. *)
Definition written_through (st : State) : Prop :=
  visited_file st = visited_document (visited_urls st).

(** What a stretch of the crawl, from [st] to [st'] with the effects [evs],
    keeps true of the sets, the two state files and the effects. *)
Record audit (st st' : State) (evs : list Event) : Prop := Audit {
  audit_trace : trace st' = trace st ++ evs;
  audit_grows : grows st st';
  audit_added :
    ∀ u, u ∈ visited_urls st' →
         u ∈ visited_urls st ∨ EPrint (MAttempt u) ∈ evs;
  audit_fresh : ∀ u, EPrint (MAttempt u) ∈ evs → u ∉ visited_urls st;
  audit_fetched_once : NoDup (fetched evs);
  audit_fetched_new :
    ∀ x, x ∈ fetched evs →
         x ∈ visited_directories st' ∧ x ∉ visited_directories st;
  audit_errors_kept :
    error_entries (error_file st) `prefix_of` error_entries (error_file st');
  audit_errors_new :
    ∀ u, u ∈ error_entries (error_file st') →
         u ∈ error_entries (error_file st) ∨ EPrint (MAttempt u) ∈ evs;
  audit_errors_nodup :
    NoDup (error_entries (error_file st)) →
    NoDup (error_entries (error_file st'));
  audit_written :
    (visited_urls st' = visited_urls st ∧ visited_file st' = visited_file st)
    ∨ written_through st'
}.

Definition audited (st st' : State) : Prop := ∃ evs, audit st st' evs.

(** The recursive call keeps the audit. *)
Definition recursion_audited
    (recurse : string → string → State → option State) : Prop :=
  ∀ url path st st', recurse url path st = Some st' → audited st st'.

(** A local effect lies under the directory [root]: the path of a directory
    created and the file name of a direct fetch start with [root]. *)
Definition event_under (root : string) (e : Event) : Prop :=
  match e with
  | EMakedirs path => PyStr.startswith path root = true
  | EGetFile _ filename => PyStr.startswith filename root = true
  | ESubprocess command =>
      ∀ dir, command !! 3 = Some dir → PyStr.startswith dir root = true
  | _ => True
  end.

(** The recursive call on a path under [root] only has local effects under
    [root]. *)
Definition recursion_under (root : string)
    (recurse : string → string → State → option State) : Prop :=
  ∀ url path st st',
    PyStr.startswith path root = true →
    recurse url path st = Some st' → extends_by (event_under root) st st'.

(** The crawl of the sample tree from an empty state, and the state it
    returns ([Sample.start] if it did not return). *)
Definition sample_crawl : option State :=
  sync_mirror Sample.world "http://h/b/" [] 2 "http://h/b/" "/m" Sample.start.

Definition sample_crawled : State := default Sample.start sample_crawl.

(** * Properties *)

(** ** Strings *)

Lemma has_slash_eqb (s m : string) :
  PyStr.has_slash s = true → PyStr.has_slash m = false → String.eqb s m = false.
Proof.
  intros Hs Hm. destruct (String.eqb_spec s m) as [->|]; [congruence | done].
Qed.

(** A suffix without ["/"] is a suffix of the path exactly when it is a
    suffix of its base name. *)
Lemma endswith_basename (m p : string) :
  PyStr.has_slash m = false →
  PyStr.endswith (PyStr.basename p) m = PyStr.endswith p m.
Proof.
  intros Hm. induction p as [|c p IH]; [done|].
  cbn [PyStr.basename].
  destruct (PyStr.has_slash p) eqn:Hp.
  - rewrite IH. cbn [PyStr.endswith].
    rewrite (has_slash_eqb (String c p) m); [done | | done].
    cbn. rewrite Hp. apply orb_true_r.
  - destruct (Ascii.eqb c PyStr.slash) eqn:Hc; [|done].
    cbn [PyStr.endswith].
    rewrite (has_slash_eqb (String c p) m); [done | | done].
    cbn. rewrite Hc. done.
Qed.

(** ** State store *)

Lemma occurrences_app (u : string) (l k : list string) :
  occurrences u (l ++ k) = occurrences u l + occurrences u k.
Proof. unfold occurrences. by rewrite filter_app, length_app. Qed.

Lemma occurrences_absent (u : string) (l : list string) :
  u ∉ l → occurrences u l = 0.
Proof.
  unfold occurrences. induction l as [|x l IH]; [done|].
  intros Hn. apply not_elem_of_cons in Hn as [Hne Hn].
  rewrite filter_cons_False by congruence. by apply IH.
Qed.

Lemma occurrences_present (u : string) (l : list string) :
  u ∈ l → 1 ≤ occurrences u l.
Proof.
  unfold occurrences. induction l as [|x l IH]; [by intros ?%elem_of_nil|].
  intros Hin. destruct (decide (x = u)) as [->|Hne].
  - rewrite filter_cons_True by done. cbn. lia.
  - rewrite filter_cons_False by done.
    apply elem_of_cons in Hin as [->|Hin]; [done | by apply IH].
Qed.

Lemma error_entries_save (u : string) (f : FileState) :
  error_entries (save_error_url u f)
  = if decide (u ∈ error_entries f) then error_entries f
    else error_entries f ++ [u].
Proof.
  unfold error_entries at 1. unfold load_error_urls at 1, save_error_url.
  cbn [path_exists read_member]. by rewrite lookup_singleton_eq.
Qed.

Lemma error_entries_recorded (u : string) (f : FileState) :
  u ∈ error_entries (save_error_url u f).
Proof.
  rewrite error_entries_save. case_decide; [done|].
  apply elem_of_app. right. by apply list_elem_of_singleton.
Qed.

(** The parts of the loader's contract that hold: a missing file gives the
    empty set silently; [IOError] and [JSONDecodeError] give the empty set
    with a warning; a readable object gives the set of its array. *)
Lemma load_visited_urls_tolerated :
  load_visited_urls Missing = Ok (∅, [])
  ∧ load_visited_urls Unreadable = Ok (∅, [MLoadWarning IOError])
  ∧ load_visited_urls NotJson = Ok (∅, [MLoadWarning JSONDecodeError]).
Proof. done. Qed.

Lemma load_visited_document (X : gset string) :
  load_visited_urls (visited_document X) = Ok (X, [MLoaded (size X)]).
Proof.
  unfold load_visited_urls, visited_document. cbn [path_exists read_member].
  rewrite lookup_singleton_eq. cbv zeta. cbn [default id].
  by rewrite list_to_set_elements_L.
Qed.

(** C9 (the loader of the Visited Set never raises; a read or parse failure
    gives a warning and the empty set).  The code misses two failures: a file
    that is not UTF-8 makes [f.read()] raise [UnicodeDecodeError], and a JSON
    value that is no object makes [data.get] raise [AttributeError]; neither
    is an [IOError] or a [JSONDecodeError], so both leave
    [load_visited_urls], and the run controller, which loads outside its
    [try], crashes.  The loader inside [save_error_url] catches [Exception]
    and reads the same two files as the empty collection. *)
Theorem load_visited_urls_uncaught :
  load_visited_urls NotUtf8 = Raise UnicodeDecodeError
  ∧ load_visited_urls NotObject = Raise AttributeError
  ∧ load_error_urls NotUtf8 = [] ∧ load_error_urls NotObject = []
  ∧ ∀ E fuel base_url root aria2_options errors dirs,
      async_main E fuel base_url root aria2_options
        {| disk_visited := NotUtf8; disk_errors := errors; disk_dirs := dirs |}
      = if aria2c_installed E then Crashed UnicodeDecodeError else NoHelper.
Proof.
  repeat split; try done.
  intros E fuel base_url root aria2_options errors dirs.
  unfold async_main. by destruct (aria2c_installed E).
Qed.


(** A second call with the same URL changes nothing, whatever the prior
    file. *)
Lemma save_error_url_idempotent (u : string) (f : FileState) :
  save_error_url u (save_error_url u f) = save_error_url u f.
Proof.
  unfold save_error_url at 1. fold (error_entries (save_error_url u f)).
  rewrite decide_True by apply error_entries_recorded.
  rewrite error_entries_save. by unfold save_error_url, error_entries.
Qed.



(** ** Transfer dispatcher *)



(** C6: on a URL that does not end in [.metalink], the segmented download
    succeeds exactly when the subprocess exits with code 0, whatever it
    printed; when neither marker is in the output the output is printed and the
    call still succeeds; on a non-zero exit code or a failed launch the call
    fails and the error file is the one [save_error_url] leaves, which lists
    the URL. *)
Theorem segmented_download_outcome (E : Env) (file_url local_dir : string)
    (aria2_options : list string) (st : State) :
  PyStr.endswith file_url ".metalink" = false →
  let command := aria2_command file_url local_dir aria2_options in
  let started := emit (ESubprocess command) (say (MAttempt file_url) st) in
  let outcome := run_aria2c E (S (now st)) command in
  let r := download_file_with_aria2 E file_url local_dir aria2_options st in
  (r.1 = true ↔ ∃ out err, outcome = Exited 0 out err)
  ∧ (r.1 = true → error_file r.2 = error_file st)
  ∧ (∀ out err,
       outcome = Exited 0 out err →
       PyStr.contains (PyStr.lower out) "download completed" = false →
       PyStr.contains (PyStr.lower out) "already been completed" = false →
       r = (true, say (MRawOutput out) started))
  ∧ (r.1 = false ↔ outcome = LaunchFailed
                   ∨ ∃ rc out err, outcome = Exited rc out err ∧ rc ≠ 0%Z)
  ∧ (r.1 = false →
       error_file r.2 = save_error_url file_url (error_file st)
       ∧ file_url ∈ error_entries (error_file r.2)).
Proof.
  intros Hm command started outcome r.
  assert (Hnow : now (say (MAttempt file_url) st) = S (now st)).
  { unfold now, say, emit. cbn. rewrite length_app. cbn. lia. }
  subst r. unfold download_file_with_aria2. rewrite Hm, Hnow.
  fold command. fold outcome. fold started.
  destruct outcome as [rc out err|] eqn:Ho.
  - destruct (Z.eqb_spec rc 0) as [->|Hrc].
    + repeat split.
      * eauto.
      * by repeat case_match.
      * by repeat case_match.
      * intros out' err' [= <- <-] -> ->. done.
      * intros Hr. by repeat case_match.
      * intros [?|(rc & ? & ? & [= <- _ _] & ?)]; done.
      * by repeat case_match.
      * by repeat case_match.
    + cbn [fst snd]. repeat split; try done.
      * intros (? & ? & [= ? _ _]). done.
      * intros ? ? [= ? _ _]. done.
      * intros _. right. eauto.
      * apply error_entries_recorded.
  - cbn [fst snd]. repeat split; try done.
    + intros (? & ? & [=]).
    + intros _. by left.
    + apply error_entries_recorded.
Qed.

(** A transfer on which [aria2c] exits with code 1. *)
Lemma segmented_download_outcome_witness :
  PyStr.endswith "http://h/b/x.iso" ".metalink" = false
  ∧ "http://h/b/x.iso"
    ∈ error_entries
        (error_file
           (download_file_with_aria2 Sample.failing_world
              "http://h/b/x.iso" "/m" [] Sample.start).2).
Proof.
  split; [reflexivity|].
  apply (segmented_download_outcome Sample.failing_world "http://h/b/x.iso" "/m"
           [] Sample.start); reflexivity.
Defined.

(** ** The link loop *)




(** The dispatcher touches neither of the crawler's sets nor the visited
    file. *)
Lemma download_file_with_aria2_frame (E : Env) (file_url local_dir : string)
    (aria2_options : list string) (st : State) :
  let st' := (download_file_with_aria2 E file_url local_dir aria2_options st).2 in
  visited_urls st' = visited_urls st
  ∧ visited_directories st' = visited_directories st
  ∧ visited_file st' = visited_file st.
Proof.
  unfold download_file_with_aria2, download_file_with_aiohttp.
  repeat case_match; done.
Qed.

(** C4: for a file link that reaches the dispatcher, a successful transfer
    adds the URL to the Visited Set and rewrites the visited file with the
    whole set before the rest of the links is processed; a failed transfer
    leaves the set and the file as they were, without the URL. *)
Theorem file_link_bookkeeping (E : Env) (base_sync_url : string)
    (aria2_options : list string)
    (recurse : string → string → State → option State)
    (current_url local_path h : string) (rest : list (option string))
    (st : State) :
  let next_url := urljoin E current_url h in
  let r := download_file_with_aria2 E next_url local_path aria2_options st in
  link_filtered E (Some h) = false →
  PyStr.startswith next_url base_sync_url = true →
  next_url ≠ current_url →
  PyStr.endswith h "/" = false →
  next_url ∉ visited_urls st →
  ∃ st',
    process_link E base_sync_url aria2_options recurse current_url local_path
      (Some h) st = Some st'
    ∧ process_links E base_sync_url aria2_options recurse current_url
        local_path (Some h :: rest) st
      = process_links E base_sync_url aria2_options recurse current_url
          local_path rest st'
    ∧ (r.1 = true →
         visited_urls st' = {[ next_url ]} ∪ visited_urls st
         ∧ visited_file st' = visited_document (visited_urls st')
         ∧ ∃ msgs, load_visited_urls (visited_file st')
                   = Ok (visited_urls st', msgs))
    ∧ (r.1 = false →
         st' = (r.2)
         ∧ visited_urls st' = visited_urls st
         ∧ (next_url ∉ visited_urls st')
         ∧ visited_file st' = visited_file st).
Proof.
  intros next_url r Hf Hscope Hself Hfile Hnew.
  assert (Hlink : process_link E base_sync_url aria2_options recurse
            current_url local_path (Some h) st
          = if r.1 then Some (save_visited_urls (add_visited_url next_url r.2))
            else Some r.2).
  { unfold process_link. rewrite Hf. cbn [default id]. cbv zeta.
    unfold route_link. fold next_url. rewrite Hscope. cbn [negb].
    rewrite (proj2 (String.eqb_neq _ _) Hself), Hfile.
    rewrite decide_False by done. fold r. by destruct r as [[] ?]. }
  destruct (download_file_with_aria2_frame E next_url local_path
              aria2_options st) as (Hv & _ & Hvf).
  fold r in Hv, Hvf.
  rewrite Hlink. cbn [process_links]. rewrite Hlink.
  destruct (r.1) eqn:Hr; eexists; (split; [reflexivity|]);
    (split; [reflexivity|]); split; try (by intros [=]); intros _.
  - cbn. rewrite Hv. repeat split.
    eexists. apply load_visited_document.
  - rewrite Hv, Hvf. done.
Qed.

(** The link [x.iso] of the sample tree, transferred with success. *)
Lemma file_link_bookkeeping_witness :
  let next_url := "http://h/b/x.iso" in
  ∃ st',
    process_link Sample.world "http://h/b/" [] (λ _ _ _, None) "http://h/b/"
      "/m" (Some "x.iso") Sample.start = Some st'
    ∧ visited_urls st' = {[ next_url ]} ∪ visited_urls Sample.start.
Proof.
  destruct (file_link_bookkeeping Sample.world "http://h/b/" []
              (λ _ _ _, None) "http://h/b/" "/m" "x.iso" [] Sample.start)
    as (st' & Hlink & _ & Hok & _).
  - reflexivity.
  - reflexivity.
  - discriminate.
  - reflexivity.
  - apply not_elem_of_empty.
  - exists st'. split; [exact Hlink|]. apply Hok. reflexivity.
Defined.

(** ** The crawl only adds *)


Lemma grows_refl (st : State) : grows st st.
Proof. by split. Qed.

Lemma grows_trans (st1 st2 st3 : State) :
  grows st1 st2 → grows st2 st3 → grows st1 st3.
Proof. intros [] []. split; etrans; eauto. Qed.

#[export] Instance grows_preorder : PreOrder grows.
Proof. split; [exact grows_refl | exact grows_trans]. Qed.

Lemma grows_emit (e : Event) (st : State) : grows st (emit e st).
Proof. split; cbn; try done. by apply prefix_app_r. Qed.

Lemma grows_say (m : Msg) (st : State) : grows st (say m st).
Proof. apply grows_emit. Qed.

Lemma grows_makedirs (path : string) (st : State) : grows st (makedirs path st).
Proof. split; cbn; try done; [set_solver | by apply prefix_app_r]. Qed.

Lemma grows_record_error (url : string) (st : State) :
  grows st (record_error url st).
Proof. by split. Qed.

Lemma grows_add_visited_url (url : string) (st : State) :
  grows st (add_visited_url url st).
Proof. split; cbn; try done. set_solver. Qed.

Lemma grows_add_visited_directory (url : string) (st : State) :
  grows st (add_visited_directory url st).
Proof. split; cbn; try done. set_solver. Qed.

Lemma grows_save_visited_urls (st : State) : grows st (save_visited_urls st).
Proof. by split. Qed.

(** Chains of additions: [grows_step] peels the outermost operation. *)
Ltac grows_step :=
  first
    [ reflexivity
    | etrans; [|apply grows_makedirs]
    | etrans; [|apply grows_say]
    | etrans; [|apply grows_emit]
    | etrans; [|apply grows_record_error]
    | etrans; [|apply grows_save_visited_urls]
    | etrans; [|apply grows_add_visited_url]
    | etrans; [|apply grows_add_visited_directory] ].

Lemma grows_download_file_with_aria2 (E : Env) (file_url local_dir : string)
    (aria2_options : list string) (st : State) :
  grows st (download_file_with_aria2 E file_url local_dir aria2_options st).2.
Proof.
  unfold download_file_with_aria2, download_file_with_aiohttp.
  repeat case_match; cbn [snd]; repeat grows_step.
Qed.

Section Growth.
Context (E : Env) (base_sync_url : string) (aria2_options : list string).

Local Abbreviation route := (route_link E base_sync_url aria2_options).
Local Abbreviation step := (process_link E base_sync_url aria2_options).
Local Abbreviation loop := (process_links E base_sync_url aria2_options).
Local Abbreviation crawl := (sync_mirror E base_sync_url aria2_options).


Lemma grows_route_link recurse current_url local_path href next_url st st' :
  recursion_grows recurse →
  route recurse current_url local_path href next_url st = Some st' →
  grows st st'.
Proof.
  intros Hrec. unfold route_link.
  pose proof (grows_download_file_with_aria2 E next_url local_path
                aria2_options st) as Hd.
  repeat case_match; intros Heq; simplify_eq;
    try (by repeat grows_step); eauto.
Qed.

Lemma grows_process_link recurse current_url local_path href st st' :
  recursion_grows recurse →
  step recurse current_url local_path href st = Some st' →
  grows st st'.
Proof.
  intros Hrec. unfold process_link. case_match.
  - by intros [= <-].
  - by apply grows_route_link.
Qed.

Lemma grows_process_links recurse current_url local_path links st st' :
  recursion_grows recurse →
  loop recurse current_url local_path links st = Some st' →
  grows st st'.
Proof.
  intros Hrec. revert st.
  induction links as [|href rest IH]; intros st; cbn [process_links].
  - by intros [= <-].
  - destruct (step recurse current_url local_path href st)
      as [st1|] eqn:Hl; [|done].
    intros Hrest. etrans; [by eapply grows_process_link|]. by apply IH.
Qed.

Lemma grows_sync_mirror fuel : recursion_grows (crawl fuel).
Proof.
  induction fuel as [|fuel IH]; intros url path st st'; [done|].
  cbn [sync_mirror].
  repeat case_match; try (intros [= <-]; by repeat grows_step).
  intros Hl%grows_process_links; [|done].
  etrans; [|exact Hl]. repeat grows_step.
Qed.

End Growth.

(** ** Entering a directory *)

Section Entry.
Context (E : Env) (base_sync_url : string) (aria2_options : list string).

Local Abbreviation crawl := (sync_mirror E base_sync_url aria2_options).


Lemma trace_entered current_url local_path st :
  trace (entered current_url local_path st)
  = trace st ++ [EPrint (MExploring current_url); EMakedirs local_path;
                 EGetIndex current_url].
Proof. cbn. by rewrite <- !app_assoc. Qed.

Lemma local_dirs_entered current_url local_path st :
  local_path ∈ local_dirs (entered current_url local_path st).
Proof. cbn. set_solver. Qed.

(** One unfolding of [sync_mirror]. *)
Lemma sync_mirror_unfold fuel current_url local_path st :
  crawl (S fuel) current_url local_path st
  = let normalized_url := PyStr.rstrip_slash current_url in
    if decide (normalized_url ∈ visited_directories st) then
      Some (say (MDirSeen current_url) st)
    else if decide (normalized_url ∈ visited_urls st) then
      Some (say (MUrlSeen current_url)
              (add_visited_directory normalized_url st))
    else
      match fetch_index E current_url with
      | ClientError =>
          Some (say (MUnreachable current_url)
                  (entered current_url local_path st))
      | OtherError =>
          Some (say (MHttpError current_url)
                  (entered current_url local_path st))
      | Page [] =>
          Some (say (MNoLinks current_url)
                  (entered current_url local_path st))
      | Page links =>
          process_links E base_sync_url aria2_options (crawl fuel)
            current_url local_path links (entered current_url local_path st)
      end.
Proof. reflexivity. Qed.

Lemma visited_directories_entered current_url local_path st :
  visited_directories (entered current_url local_path st)
  = {[PyStr.rstrip_slash current_url]} ∪ visited_directories st.
Proof. reflexivity. Qed.


End Entry.

(** ** Scope containment *)


Section Extension.
Context (P : Event → Prop).

Lemma extends_by_refl st : extends_by P st st.
Proof. exists []. by rewrite app_nil_r. Qed.

Lemma extends_by_trans st1 st2 st3 :
  extends_by P st1 st2 → extends_by P st2 st3 → extends_by P st1 st3.
Proof.
  intros (evs1 & H1 & F1) (evs2 & H2 & F2). exists (evs1 ++ evs2). split.
  - by rewrite H2, H1, app_assoc.
  - by apply Forall_app.
Qed.

Lemma extends_by_emit e st : P e → extends_by P st (emit e st).
Proof. intros He. exists [e]. split; [done | by constructor]. Qed.

Lemma extends_by_silent st st' : trace st' = trace st → extends_by P st st'.
Proof. intros Ht. exists []. by rewrite app_nil_r. Qed.

Lemma extends_by_elem_of e st st' :
  extends_by P st st' → e ∈ trace st' → e ∈ trace st ∨ P e.
Proof.
  intros (evs & -> & Hevs) [?|Hin]%elem_of_app; [by left|right].
  by eapply Forall_forall.
Qed.

End Extension.

Lemma startswith_refl (s : string) : PyStr.startswith s s = true.
Proof. induction s as [|c s IH]; [done|]. cbn. by rewrite Ascii.eqb_refl. Qed.

Lemma startswith_append (s t : string) : PyStr.startswith (s +:+ t) s = true.
Proof.
  induction s as [|c s IH]; [by destruct t|].
  change (String c s +:+ t) with (String c (s +:+ t)).
  cbn [PyStr.startswith]. by rewrite Ascii.eqb_refl.
Qed.

Lemma endswith_refl (s : string) : PyStr.endswith s s = true.
Proof. destruct s; cbn [PyStr.endswith]; by rewrite String.eqb_refl. Qed.

Lemma endswith_append (s suf : string) : PyStr.endswith (s +:+ suf) suf = true.
Proof.
  induction s as [|c s IH]; [apply endswith_refl|].
  change (String c s +:+ suf) with (String c (s +:+ suf)).
  cbn [PyStr.endswith]. rewrite IH. apply orb_true_r.
Qed.

(** The base scope handed to the crawl ends with a slash. *)
Lemma target_base_url_slash (base_url : string) :
  PyStr.endswith (target_base_url base_url) "/" = true.
Proof.
  unfold target_base_url. destruct (PyStr.endswith base_url "/") eqn:He;
    [done | apply endswith_append].
Qed.

Lemma last_aria2_command (file_url local_dir : string)
    (aria2_options : list string) :
  last (aria2_command file_url local_dir aria2_options) = Some file_url.
Proof.
  unfold aria2_command. rewrite app_assoc. apply last_snoc.
Qed.

Section Scope.
Context (E : Env) (base_sync_url : string) (aria2_options : list string).

Local Abbreviation route := (route_link E base_sync_url aria2_options).
Local Abbreviation step := (process_link E base_sync_url aria2_options).
Local Abbreviation loop := (process_links E base_sync_url aria2_options).
Local Abbreviation crawl := (sync_mirror E base_sync_url aria2_options).
Local Abbreviation scoped := (in_scope_run base_sync_url).

Lemma in_scope_run_refl st : scoped st st.
Proof. apply extends_by_refl. Qed.

Lemma in_scope_run_trans st1 st2 st3 :
  scoped st1 st2 → scoped st2 st3 → scoped st1 st3.
Proof. apply extends_by_trans. Qed.

Lemma in_scope_emit e st :
  event_in_scope base_sync_url e → scoped st (emit e st).
Proof. apply extends_by_emit. Qed.

Lemma in_scope_makedirs path st : scoped st (makedirs path st).
Proof. exists [EMakedirs path]. split; [done | by constructor]. Qed.

Lemma in_scope_silent st st' : trace st' = trace st → scoped st st'.
Proof. apply extends_by_silent. Qed.

Lemma in_scope_record_error url st : scoped st (record_error url st).
Proof. by apply in_scope_silent. Qed.

Lemma in_scope_save_visited_urls st : scoped st (save_visited_urls st).
Proof. by apply in_scope_silent. Qed.

Lemma in_scope_add_visited_url url st : scoped st (add_visited_url url st).
Proof. by apply in_scope_silent. Qed.

Lemma in_scope_add_visited_directory url st :
  scoped st (add_visited_directory url st).
Proof. by apply in_scope_silent. Qed.

(** Chains of effects: [scoped_step] peels the outermost operation; the
    URL of an emitted effect has to be in scope by assumption. *)
Ltac scoped_step :=
  first
    [ apply in_scope_run_refl
    | eapply in_scope_run_trans; [|apply in_scope_makedirs]
    | eapply in_scope_run_trans;
      [|apply in_scope_emit;
        first [assumption | cbn; intros; by simplify_eq]]
    | eapply in_scope_run_trans; [|apply in_scope_record_error]
    | eapply in_scope_run_trans; [|apply in_scope_save_visited_urls]
    | eapply in_scope_run_trans; [|apply in_scope_add_visited_url]
    | eapply in_scope_run_trans; [|apply in_scope_add_visited_directory] ].

Lemma in_scope_download file_url local_dir st :
  PyStr.startswith file_url base_sync_url = true →
  scoped st (download_file_with_aria2 E file_url local_dir aria2_options st).2.
Proof.
  intros Hs.
  assert (event_in_scope base_sync_url
            (ESubprocess (aria2_command file_url local_dir aria2_options))).
  { intros url. rewrite last_aria2_command. by intros [= <-]. }
  unfold download_file_with_aria2, download_file_with_aiohttp.
  repeat case_match; cbn [snd]; by repeat scoped_step.
Qed.

Lemma in_scope_route recurse current_url local_path href next_url st st' :
  recursion_scoped base_sync_url recurse →
  route recurse current_url local_path href next_url st = Some st' →
  scoped st st'.
Proof.
  intros Hrec. unfold route_link.
  destruct (PyStr.startswith next_url base_sync_url) eqn:Hs; cbn [negb].
  2:{ intros [= <-]. by repeat scoped_step. }
  pose proof (in_scope_download next_url local_path st Hs) as Hd.
  repeat case_match; intros Heq; simplify_eq; eauto;
    try (by repeat scoped_step).
Qed.

Lemma in_scope_process_links recurse current_url local_path links st st' :
  recursion_scoped base_sync_url recurse →
  loop recurse current_url local_path links st = Some st' →
  scoped st st'.
Proof.
  intros Hrec. revert st.
  induction links as [|href rest IH]; intros st; cbn [process_links].
  - intros [= <-]. apply in_scope_run_refl.
  - destruct (step recurse current_url local_path href st)
      as [st1|] eqn:Hl; [|done].
    intros Hrest. eapply in_scope_run_trans; [|by apply IH].
    revert Hl. unfold process_link. case_match.
    + intros [= <-]. apply in_scope_run_refl.
    + by apply in_scope_route.
Qed.

Lemma in_scope_sync_mirror fuel : recursion_scoped base_sync_url (crawl fuel).
Proof.
  induction fuel as [|fuel IH]; intros url path st st' Hs; [done|].
  cbn [sync_mirror].
  repeat case_match; try (intros [= <-]; by repeat scoped_step).
  intros Hl%in_scope_process_links; [|done].
  eapply in_scope_run_trans; [|exact Hl]. by repeat scoped_step.
Qed.

End Scope.

Lemma load_messages_in_scope (base : string) (f : FileState)
    (loaded : gset string) (msgs : list Msg) :
  load_visited_urls f = Ok (loaded, msgs) →
  Forall (event_in_scope base) (EPrint <$> msgs).
Proof.
  destruct f; cbn; intros [= <- <-]; repeat constructor; by intros url.
Qed.

(** C3: a resolved link that does not start with the base scope is skipped
    with its message, whatever the recursion would do; in a whole run, every
    index page fetched, every directory entered or skipped as visited, and
    every file transferred or skipped as visited (messages, subprocess,
    streaming GET) has a URL that starts with the base scope; and the base
    scope is the starting URL with a trailing slash enforced. *)
Theorem scope_containment (E : Env) (aria2_options : list string) :
  (∀ base_sync_url recurse current_url local_path h st,
     link_filtered E (Some h) = false →
     PyStr.startswith (urljoin E current_url h) base_sync_url = false →
     process_link E base_sync_url aria2_options recurse current_url local_path
       (Some h) st
     = Some (say (MOutOfScope (urljoin E current_url h)) st))
  ∧ (∀ fuel base_url local_download_root d code st',
       async_main E fuel base_url local_download_root aria2_options d
       = Finished code st' →
       Forall (event_in_scope (target_base_url base_url)) (trace st'))
  ∧ (∀ base_url,
       PyStr.endswith (target_base_url base_url) "/" = true
       ∧ PyStr.startswith (target_base_url base_url) base_url = true).
Proof.
  split; [|split].
  - intros base_sync_url recurse current_url local_path h st Hf Hout.
    unfold process_link. rewrite Hf. cbn [default id]. cbv zeta.
    unfold route_link. by rewrite Hout.
  - intros fuel base_url root d code st'. unfold async_main.
    destruct (aria2c_installed E); [|done]. cbn [negb].
    destruct (load_visited_urls (disk_visited d)) as [[loaded msgs]|] eqn:Hload;
      [|done].
    destruct (sync_mirror _ _ _ _ _ _ _) as [st|] eqn:Hrun; [|done].
    intros [= _ <-].
    apply in_scope_sync_mirror in Hrun as (evs & Ht & Hevs);
      [|apply startswith_refl].
    cbn. rewrite Ht. cbn.
    repeat (apply Forall_app; split); try done.
    + by eapply load_messages_in_scope.
    + by repeat constructor.
    + by repeat constructor.
  - intros base_url. split; [apply target_base_url_slash|].
    unfold target_base_url. destruct (PyStr.endswith base_url "/").
    + apply startswith_refl.
    + apply startswith_append.
Qed.

(** ** Termination *)


Lemma size_difference_step (U V : gset string) (x : string) :
  x ∈ U → x ∉ V → size (U ∖ V) = S (size (U ∖ ({[x]} ∪ V))).
Proof.
  intros HU HV.
  assert (U ∖ V = {[x]} ∪ U ∖ ({[x]} ∪ V)) as ->.
  { apply set_eq. intros y.
    rewrite elem_of_union, !elem_of_difference, elem_of_union,
      elem_of_singleton.
    destruct (decide (y = x)) as [->|]; tauto. }
  rewrite size_union, size_singleton; [done|].
  intros y. rewrite elem_of_singleton, elem_of_difference, elem_of_union,
    elem_of_singleton. tauto.
Qed.

Lemma size_difference_mono (U V V' : gset string) :
  V ⊆ V' → size (U ∖ V') ≤ size (U ∖ V).
Proof.
  intros HV. apply subseteq_size. intros y.
  rewrite !elem_of_difference. intros [? ?]. split; [done|]. auto.
Qed.

Section Termination.
Context (E : Env) (base_sync_url : string) (aria2_options : list string).
Context (U : gset string).
Hypothesis tree_within : directory_links_within E base_sync_url U.

Local Abbreviation step := (process_link E base_sync_url aria2_options).
Local Abbreviation loop := (process_links E base_sync_url aria2_options).
Local Abbreviation crawl := (sync_mirror E base_sync_url aria2_options).



Lemma process_link_returns n recurse current_url local_path links h st :
  fetch_index E current_url = Page links →
  h ∈ links →
  recursion_returns U n recurse →
  unvisited U st ≤ n →
  ∃ st', step recurse current_url local_path h st = Some st'.
Proof.
  intros Hpage Hin Hrec Hn. unfold process_link.
  destruct (link_filtered E h) eqn:Hf; [by eexists|].
  destruct h as [h|]; [|done]. cbn [default id]. cbv zeta.
  unfold route_link.
  destruct (PyStr.startswith _ base_sync_url) eqn:Hs; [|by eexists].
  cbn [negb]. repeat case_match; try by eexists.
  apply Hrec; [|done..]. by eapply tree_within.
Qed.

Lemma process_links_returns n recurse current_url local_path links rest st :
  fetch_index E current_url = Page links →
  rest ⊆ links →
  recursion_returns U n recurse →
  recursion_grows recurse →
  unvisited U st ≤ n →
  ∃ st', loop recurse current_url local_path rest st = Some st'.
Proof.
  intros Hpage Hsub Hrec Hgrows. revert st.
  induction rest as [|h rest IH]; intros st Hn; cbn [process_links];
    [by eexists|].
  destruct (process_link_returns n recurse current_url local_path links h st)
    as [st1 Hst1]; [done | set_solver | done | done |].
  rewrite Hst1. apply IH; [set_solver|].
  apply grows_process_link in Hst1; [|done].
  unfold unvisited in *. etrans; [|exact Hn].
  apply size_difference_mono, Hst1.
Qed.

Lemma sync_mirror_returns n url path st :
  size (U ∖ ({[PyStr.rstrip_slash url]} ∪ visited_directories st)) ≤ n →
  ∃ st', crawl (S n) url path st = Some st'.
Proof.
  revert url path st. induction n as [|n IH]; intros url path st Hn;
    rewrite sync_mirror_unfold; cbv zeta;
    repeat case_match; try (by eexists); subst.
  - eapply process_links_returns with (n := 0); [done | done | | done | done].
    intros url' path' st1 HU Hnew Hst1. unfold unvisited in Hst1.
    rewrite (size_difference_step U _ _ HU Hnew) in Hst1. lia.
  - eapply process_links_returns with (n := S n);
      [done | done | | apply grows_sync_mirror | done].
    intros url' path' st1 HU Hnew Hst1. apply IH.
    unfold unvisited in Hst1.
    rewrite (size_difference_step U _ _ HU Hnew) in Hst1. lia.
Qed.

End Termination.

Lemma directory_links_within_mono (E : Env) (base_sync_url : string)
    (U U' : gset string) :
  U ⊆ U' →
  directory_links_within E base_sync_url U →
  directory_links_within E base_sync_url U'.
Proof. intros HU Hw cur links h ? ? ? ? ?. apply HU. by eapply Hw. Qed.

(** The number of distinct normalized directory URLs, the starting one
    included, is one more than what remains to visit after the start. *)
Lemma depth_bound (U V : gset string) (x : string) :
  ∃ k, size ({[x]} ∪ U) = S k
       ∧ size (({[x]} ∪ U) ∖ ({[x]} ∪ V)) ≤ k.
Proof.
  set (U' := {[x]} ∪ U).
  assert (x ∈ U') as Hin by (apply elem_of_union_l; by apply elem_of_singleton).
  exists (size (U' ∖ ({[x]} ∪ ∅))). split.
  - rewrite <- (size_difference_step U' ∅ x Hin); [|apply not_elem_of_empty].
    by rewrite difference_empty_L.
  - apply size_difference_mono. apply union_mono_l, empty_subseteq.
Qed.

(** C2: when the in-scope directory links of the remote tree, self-links and
    links to ancestors included, have their normalized URLs in a finite set
    [U], every call of the crawler returns within a recursion depth of the
    number of distinct normalized directory URLs (those of [U] and the
    starting one); the normalized URL of the directory is in the
    Visited-Directories Set afterwards, and a directory whose normalized URL
    is already there is not entered again: the call only prints the skip
    message. *)
Theorem crawl_terminates (E : Env) (base_sync_url : string)
    (aria2_options : list string) (U : gset string)
    (current_url local_path : string) (st : State) :
  directory_links_within E base_sync_url U →
  let normalized_url := PyStr.rstrip_slash current_url in
  ∃ st',
    sync_mirror E base_sync_url aria2_options (size ({[normalized_url]} ∪ U))
      current_url local_path st = Some st'
    ∧ normalized_url ∈ visited_directories st'
    ∧ (normalized_url ∈ visited_directories st →
       st' = say (MDirSeen current_url) st).
Proof.
  intros Hw normalized_url.
  destruct (depth_bound U (visited_directories st) normalized_url)
    as (k & -> & Hle).
  destruct (sync_mirror_returns E base_sync_url aria2_options
              ({[normalized_url]} ∪ U)
              (directory_links_within_mono _ _ U _ (union_subseteq_r _ _) Hw)
              k current_url local_path st Hle) as [st' Hst'].
  exists st'. split; [exact Hst'|].
  rewrite sync_mirror_unfold in Hst'. cbv zeta in Hst'.
  fold normalized_url in Hst'.
  destruct (decide (normalized_url ∈ visited_directories st)) as [Hseen|Hnew].
  - injection Hst' as <-. by split.
  - split; [|done].
    assert (grows (add_visited_directory normalized_url st) st') as Hg.
    { revert Hst'. repeat case_match; try (intros [= <-]; by repeat grows_step).
      intros Hl%grows_process_links; [|apply grows_sync_mirror].
      etrans; [|exact Hl]. unfold entered. repeat grows_step. }
    apply (grows_visited_directories _ _ Hg). cbn. apply elem_of_union_l.
    by apply elem_of_singleton.
Qed.

(** The directories of the sample tree. *)
Lemma sample_tree_within :
  directory_links_within Sample.world "http://h/b/"
    ({["http://h/b"]} ∪ {["http://h/b/a"]}).
Proof.
  intros current_url links h Hpage Hin Hf Hs He.
  cbn in Hpage. unfold Sample.tree in Hpage.
  destruct (String.eqb_spec current_url "http://h/b/") as [->|_].
  - injection Hpage as <-.
    repeat (apply elem_of_cons in Hin as [[= ->]|Hin]; try discriminate).
    + apply elem_of_union_r. by apply elem_of_singleton.
    + by apply elem_of_nil in Hin.
  - destruct (String.eqb_spec current_url "http://h/b/a/") as [->|_];
      [|discriminate].
    injection Hpage as <-.
    repeat (apply elem_of_cons in Hin as [[= ->]|Hin]; try discriminate).
    + apply elem_of_union_l. by apply elem_of_singleton.
    + apply elem_of_union_r. by apply elem_of_singleton.
    + by apply elem_of_nil in Hin.
Qed.

(** The crawl of the sample tree, whose sub-directory links to itself and
    to its parent. *)
Lemma crawl_terminates_witness :
  ∃ st',
    sync_mirror Sample.world "http://h/b/" []
      (size ({[PyStr.rstrip_slash "http://h/b/"]}
             ∪ ({["http://h/b"]} ∪ {["http://h/b/a"]}) : gset string))
      "http://h/b/" "/m" Sample.start = Some st'
    ∧ PyStr.rstrip_slash "http://h/b/" ∈ visited_directories st'.
Proof.
  destruct (crawl_terminates Sample.world "http://h/b/" []
              ({["http://h/b"]} ∪ {["http://h/b/a"]}) "http://h/b/" "/m"
              Sample.start sample_tree_within) as (st' & Hrun & Hin & _).
  exists st'. by split.
Defined.

(** The run controller, over the same tree, ends: it is not cut by the
    recursion bound. *)
Lemma run_terminates (E : Env) (aria2_options : list string) (U : gset string)
    (base_url local_download_root : string) (d : Disk) :
  directory_links_within E (target_base_url base_url) U →
  async_main E
    (size ({[PyStr.rstrip_slash (target_base_url base_url)]} ∪ U))
    base_url local_download_root aria2_options d ≠ Unbounded.
Proof.
  intros Hw. unfold async_main.
  destruct (aria2c_installed E); [|done]. cbn [negb].
  destruct (load_visited_urls (disk_visited d)) as [[loaded msgs]|]; [|done].
  set (x := PyStr.rstrip_slash (target_base_url base_url)).
  destruct (depth_bound U (visited_directories (boot d loaded msgs)) x)
    as (k & -> & Hle).
  destruct (sync_mirror_returns E (target_base_url base_url) aria2_options
              ({[x]} ∪ U)
              (directory_links_within_mono _ _ U _ (union_subseteq_r _ _) Hw)
              k (target_base_url base_url) local_download_root
              (boot d loaded msgs) Hle) as [st' ->].
  done.
Qed.

(** ** A second run over the same tree *)


Lemma attempted_download (E : Env) (file_url local_dir : string)
    (aria2_options : list string) (st : State) :
  attempted file_url
    (download_file_with_aria2 E file_url local_dir aria2_options st).2.
Proof.
  assert (attempted file_url (say (MAttempt file_url) st)) as Ha.
  { apply elem_of_app. right. by apply list_elem_of_singleton. }
  assert (∀ st', grows (say (MAttempt file_url) st) st' →
                 attempted file_url st') as Hlater.
  { intros st' Hg. by apply (elem_of_prefix _ _ _ Ha (grows_trace _ _ Hg)). }
  unfold download_file_with_aria2, download_file_with_aiohttp.
  repeat case_match; cbn [snd]; apply Hlater; repeat grows_step.
Qed.

Section Rerun.
Context (E1 E2 : Env) (base_sync_url : string) (aria2_options : list string).
Context (V1 D1 : gset string).
Hypothesis server : same_server E1 E2.
Hypothesis apart : V1 ## D1.

Local Abbreviation step1 := (process_link E1 base_sync_url aria2_options).
Local Abbreviation step2 := (process_link E2 base_sync_url aria2_options).
Local Abbreviation loop1 := (process_links E1 base_sync_url aria2_options).
Local Abbreviation loop2 := (process_links E2 base_sync_url aria2_options).
Local Abbreviation crawl1 := (sync_mirror E1 base_sync_url aria2_options).
Local Abbreviation crawl2 := (sync_mirror E2 base_sync_url aria2_options).



Lemma within_first_run_earlier st st' :
  grows st st' → within_first_run V1 D1 st' → within_first_run V1 D1 st.
Proof.
  intros [Hv Hd _ Ht] (HV & HD & Ha). repeat split.
  - by etrans.
  - by etrans.
  - intros url Hurl. apply Ha. by apply (elem_of_prefix _ _ _ Hurl Ht).
Qed.

Lemma shadows_say m1 m2 st1 st2 :
  shadows V1 st1 st2 → shadows V1 (say m1 st1) (say m2 st2).
Proof. done. Qed.

Lemma quiet_say m st :
  not_attempt (EPrint m) → quiet st (say m st).
Proof. apply extends_by_emit. Qed.

Lemma link_filtered_same href :
  link_filtered E1 href = link_filtered E2 href.
Proof.
  destruct href as [h|]; [|done]. cbn. by rewrite (same_scheme _ _ server).
Qed.


Lemma rerun_process_link recurse1 recurse2 current_url local_path href
    st1 st1' st2 :
  recursion_shadowed V1 D1 recurse1 recurse2 →
  step1 recurse1 current_url local_path href st1 = Some st1' →
  within_first_run V1 D1 st1' →
  shadows V1 st1 st2 →
  ∃ st2', step2 recurse2 current_url local_path href st2 = Some st2'
          ∧ shadows V1 st1' st2' ∧ quiet st2 st2'.
Proof.
  intros Hrec Hstep Hwithin [Hdirs Hvis].
  unfold process_link in *. rewrite <- link_filtered_same.
  destruct (link_filtered E1 href).
  { injection Hstep as <-. exists st2. repeat split; try done.
    apply extends_by_refl. }
  cbv zeta in *. rewrite <- (same_urljoin _ _ server).
  set (h := default "" href) in *.
  set (next_url := urljoin E1 current_url h) in *.
  unfold route_link in *.
  destruct (PyStr.startswith next_url base_sync_url); cbn [negb] in *.
  2:{ injection Hstep as <-. eexists. repeat split; try done.
      by apply quiet_say. }
  destruct (String.eqb next_url current_url).
  { injection Hstep as <-. exists st2. repeat split; try done.
    apply extends_by_refl. }
  destruct (PyStr.endswith h "/").
  - rewrite <- Hdirs.
    destruct (decide (PyStr.rstrip_slash next_url ∈ visited_directories st1)).
    + injection Hstep as <-. eexists. repeat split; try done.
      by apply quiet_say.
    + by eapply Hrec.
  - assert (next_url ∈ V1) as Hin.
    { destruct Hwithin as (HV & _ & Ha).
      destruct (decide (next_url ∈ visited_urls st1)) as [Hseen|Hnew].
      - injection Hstep as <-. by apply HV.
      - apply Ha.
        pose proof (attempted_download E1 next_url local_path
                      aria2_options st1) as Hatt.
        destruct (download_file_with_aria2 E1 next_url local_path
                    aria2_options st1) as [[] st]; injection Hstep as <-;
          [|exact Hatt].
        apply (elem_of_prefix _ _ _ Hatt).
        apply (grows_trace st). repeat grows_step. }
    rewrite decide_True by (by rewrite Hvis).
    eexists. split; [done|]. split; [|by apply quiet_say].
    split; [|done]. cbn. rewrite <- Hdirs.
    destruct (decide (next_url ∈ visited_urls st1)).
    + by injection Hstep as <-.
    + destruct (download_file_with_aria2_frame E1 next_url local_path
                  aria2_options st1) as (_ & Hd & _).
      destruct (download_file_with_aria2 E1 next_url local_path
                  aria2_options st1) as [[] st]; by injection Hstep as <-.
Qed.

Lemma rerun_process_links recurse1 recurse2 current_url local_path links :
  recursion_shadowed V1 D1 recurse1 recurse2 →
  recursion_grows recurse1 →
  ∀ st1 st1' st2,
    loop1 recurse1 current_url local_path links st1 = Some st1' →
    within_first_run V1 D1 st1' →
    shadows V1 st1 st2 →
    ∃ st2', loop2 recurse2 current_url local_path links st2 = Some st2'
            ∧ shadows V1 st1' st2' ∧ quiet st2 st2'.
Proof.
  intros Hrec Hgrows.
  induction links as [|href rest IH]; intros st1 st1' st2;
    cbn [process_links].
  - intros [= <-] _ Hsh. exists st2. repeat split; try apply Hsh.
    apply extends_by_refl.
  - destruct (step1 recurse1 current_url local_path href st1)
      as [st1a|] eqn:Hstep; [|done].
    intros Hrest Hwithin Hsh.
    destruct (rerun_process_link recurse1 recurse2 current_url local_path
                href st1 st1a st2 Hrec Hstep) as (st2a & -> & Hsh' & Hq);
      [|done|].
    { eapply within_first_run_earlier; [|exact Hwithin].
      by eapply grows_process_links. }
    destruct (IH st1a st1' st2a Hrest Hwithin Hsh')
      as (st2' & Hloop & Hsh'' & Hq').
    exists st2'. repeat split; try done; try apply Hsh''.
    by eapply extends_by_trans.
Qed.

Lemma shadows_entered current_url local_path st1 st2 :
  shadows V1 st1 st2 →
  shadows V1 (entered current_url local_path st1)
    (entered current_url local_path st2).
Proof. intros [Hd Hv]. split; [cbn; by rewrite Hd | done]. Qed.

Lemma quiet_entered current_url local_path m st :
  not_attempt (EPrint m) →
  quiet st (say m (entered current_url local_path st)).
Proof.
  intros Hm.
  exists [EPrint (MExploring current_url); EMakedirs local_path;
          EGetIndex current_url; EPrint m].
  split; [cbn; by rewrite <- !app_assoc | by repeat constructor].
Qed.

Lemma rerun_sync_mirror fuel :
  recursion_shadowed V1 D1 (crawl1 fuel) (crawl2 fuel).
Proof.
  induction fuel as [|fuel IH]; intros url path st1 st1' st2; [done|].
  rewrite !sync_mirror_unfold. cbv zeta. intros Hrun Hwithin Hsh.
  pose proof Hsh as [Hdirs Hvis]. rewrite <- Hdirs.
  destruct (decide (PyStr.rstrip_slash url ∈ visited_directories st1))
    as [Hseen|Hnew].
  { injection Hrun as <-. eexists. split; [done|].
    split; [done | by apply quiet_say]. }
  assert (grows (add_visited_directory (PyStr.rstrip_slash url) st1) st1')
    as Hg.
  { revert Hrun.
    repeat case_match; try (intros [= <-]; unfold entered; by repeat grows_step).
    intros Hl%grows_process_links; [|apply grows_sync_mirror].
    etrans; [|exact Hl]. unfold entered. repeat grows_step. }
  assert (PyStr.rstrip_slash url ∈ D1) as HD.
  { destruct Hwithin as (_ & HD & _). apply HD.
    apply (grows_visited_directories _ _ Hg). cbn.
    apply elem_of_union_l. by apply elem_of_singleton. }
  assert (PyStr.rstrip_slash url ∉ V1) as HV.
  { intros HV. by apply (apart (PyStr.rstrip_slash url)). }
  rewrite decide_False in Hrun.
  2:{ intros Hin. apply HV. destruct Hwithin as (HV1 & _).
      apply HV1. by apply (grows_visited_urls _ _ Hg). }
  rewrite decide_False by (by rewrite Hvis).
  rewrite <- (same_tree _ _ server).
  pose proof (shadows_entered url path st1 st2 Hsh) as Hent.
  assert (quiet st2 (entered url path st2)) as Hq.
  { exists [EPrint (MExploring url); EMakedirs path; EGetIndex url].
    split; [cbn; by rewrite <- !app_assoc | by repeat constructor]. }
  destruct (fetch_index E1 url) as [[|href links]| |].
  - injection Hrun as <-. eexists. split; [done|].
    split; [done | by apply quiet_entered].
  - destruct (rerun_process_links (crawl1 fuel) (crawl2 fuel) url path
                (href :: links) IH (grows_sync_mirror _ _ _ fuel)
                _ _ _ Hrun Hwithin Hent) as (st2' & Hloop & Hsh' & Hq').
    exists st2'. repeat split; try done; try apply Hsh'.
    by eapply extends_by_trans.
  - injection Hrun as <-. eexists. split; [done|].
    split; [done | by apply quiet_entered].
  - injection Hrun as <-. eexists. split; [done|].
    split; [done | by apply quiet_entered].
Qed.

End Rerun.

Lemma load_messages_quiet (f : FileState) (loaded : gset string)
    (msgs : list Msg) :
  load_visited_urls f = Ok (loaded, msgs) →
  Forall not_attempt (EPrint <$> msgs).
Proof.
  destruct f; cbn; intros [= <- <-]; repeat constructor; by intros url.
Qed.

(** C1, amended: when a first run ends with every URL it handed to the
    dispatcher recorded in the Visited Set, and no URL of that set is also
    the normalized URL of a directory the run visited, a second run on the
    same server, started from the disk the first run left, ends without
    invoking the dispatcher and with the same Visited Set. *)
Theorem second_run_transfers_nothing (E1 E2 : Env) (fuel : nat)
    (base_url local_download_root : string) (aria2_options : list string)
    (d : Disk) (code : Z) (st1 : State) :
  same_server E1 E2 →
  async_main E1 fuel base_url local_download_root aria2_options d
  = Finished code st1 →
  (∀ url, attempted url st1 → url ∈ visited_urls st1) →
  visited_urls st1 ## visited_directories st1 →
  ∃ st2,
    async_main E2 fuel base_url local_download_root aria2_options (disk_of st1)
    = Finished 0 st2
    ∧ (∀ url, ¬ attempted url st2)
    ∧ visited_urls st2 = visited_urls st1.
Proof.
  intros Hserver Hrun Hall Hapart. unfold async_main in *.
  rewrite <- (same_helper _ _ Hserver).
  destruct (aria2c_installed E1); [|done]. cbn [negb] in *.
  destruct (load_visited_urls (disk_visited d)) as [[loaded msgs]|]; [|done].
  destruct (sync_mirror E1 _ _ _ _ _ _) as [st|] eqn:Hcrawl; [|done].
  injection Hrun as _ <-.
  set (fin := say (MSaved (size (visited_urls st)))
                (save_visited_urls (say MAllDone st))) in *.
  change (disk_visited (disk_of fin)) with (visited_document (visited_urls st)).
  rewrite load_visited_document.
  set (st0 := boot (disk_of fin) (visited_urls st) _).
  destruct (rerun_sync_mirror E1 E2 (target_base_url base_url) aria2_options
              (visited_urls st) (visited_directories st) Hserver Hapart fuel
              (target_base_url base_url) local_download_root
              (boot d loaded msgs) st st0 Hcrawl)
    as (st2 & Hcrawl2 & [_ Hvis] & Hquiet).
  - repeat split; [done..|]. intros url Hurl. apply Hall.
    unfold attempted in *. cbn. rewrite <- app_assoc.
    apply elem_of_app. by left.
  - done.
  - rewrite Hcrawl2. eexists. split; [done|]. split; [|exact Hvis].
    intros url Hurl. unfold attempted in Hurl. cbn in Hurl.
    apply elem_of_app in Hurl as [Hurl|Hurl].
    2:{ apply list_elem_of_singleton in Hurl. done. }
    apply elem_of_app in Hurl as [Hurl|Hurl].
    2:{ apply list_elem_of_singleton in Hurl. done. }
    apply (extends_by_elem_of _ _ _ _ Hquiet) in Hurl as [Hurl|Hurl].
    + cbn in Hurl. apply list_elem_of_singleton in Hurl. done.
    + by apply (Hurl url).
Qed.


(** C1, as stated, fails.  On [Sample.aliased_tree] the first run enters
    [x/], and from there [/b/a//], whose page is empty; it then transfers the
    file [x] and skips [a/], whose normalized URL is already visited.  Every
    URL it attempted is in its Visited Set.  The second run skips [x/]
    because [http://h/b/x] is now in the Visited Set, so it reaches [a/]
    first under the URL [http://h/b/a/], fetches that page, and invokes the
    dispatcher on [f.iso]. *)
Lemma second_run_transfers_from_aliased_directory :
  let run1 :=
    async_main Sample.aliased_world 3 "http://h/b/" "/m" [] Sample.empty_disk in
  let run2 :=
    async_main Sample.aliased_world 3 "http://h/b/" "/m" []
      (disk_of (final_state run1)) in
  run1 = Finished 0 (final_state run1)
  ∧ (∀ url, attempted url (final_state run1) →
            url ∈ visited_urls (final_state run1))
  ∧ run2 = Finished 0 (final_state run2)
  ∧ attempted "http://h/b/a/f.iso" (final_state run2).
Proof.
  intros run1 run2.
  assert (trace (final_state run1)
          = [EPrint (MExploring "http://h/b/"); EMakedirs "/m";
             EGetIndex "http://h/b/"; EPrint (MExploring "http://h/b/x/");
             EMakedirs "/m/x"; EGetIndex "http://h/b/x/";
             EPrint (MExploring "http://h/b/a//"); EMakedirs "/m/x/b/a";
             EGetIndex "http://h/b/a//"; EPrint (MNoLinks "http://h/b/a//");
             EPrint (MAttempt "http://h/b/x");
             ESubprocess ["aria2c"; "-c"; "--dir"; "/m"; "http://h/b/x"];
             EPrint (MDownloadDone "http://h/b/x");
             EPrint (MDirSeen "http://h/b/a/"); EPrint MAllDone;
             EPrint (MSaved 1)]) as Htrace1 by (vm_compute; reflexivity).
  split; [vm_compute; reflexivity|]. split.
  - intros url Hurl. unfold attempted in Hurl. rewrite Htrace1 in Hurl.
    repeat (apply elem_of_cons in Hurl as [[= ->]|Hurl]).
    + vm_compute. reflexivity.
    + exfalso. by apply elem_of_nil in Hurl.
  - split; [vm_compute; reflexivity|].
    unfold attempted.
    assert (trace (final_state run2)
            = [EPrint (MLoaded 1); EPrint (MExploring "http://h/b/");
               EMakedirs "/m"; EGetIndex "http://h/b/";
               EPrint (MUrlSeen "http://h/b/x/");
               EPrint (MFileSeen "http://h/b/x");
               EPrint (MExploring "http://h/b/a/"); EMakedirs "/m/a";
               EGetIndex "http://h/b/a/";
               EPrint (MAttempt "http://h/b/a/f.iso");
               ESubprocess
                 ["aria2c"; "-c"; "--dir"; "/m/a"; "http://h/b/a/f.iso"];
               EPrint (MDownloadDone "http://h/b/a/f.iso");
               EPrint MAllDone; EPrint (MSaved 2)]) as ->
      by (vm_compute; reflexivity).
    do 9 apply list_elem_of_further. apply list_elem_of_here.
Qed.

(** Two runs over the sample tree: the first transfers [a/y.iso] and
    [x.iso]. *)
Lemma second_run_transfers_nothing_witness :
  let run1 :=
    async_main Sample.world 2 "http://h/b/" "/m" [] Sample.empty_disk in
  ∃ st2,
    async_main Sample.world 2 "http://h/b/" "/m" [] (disk_of (final_state run1))
    = Finished 0 st2
    ∧ (∀ url, ¬ attempted url st2)
    ∧ visited_urls st2 = visited_urls (final_state run1).
Proof.
  intros run1.
  apply (second_run_transfers_nothing Sample.world Sample.world 2
           "http://h/b/" "/m" [] Sample.empty_disk 0 (final_state run1)).
  - by split.
  - vm_compute. reflexivity.
  - assert (trace (final_state run1)
            = [EPrint (MExploring "http://h/b/"); EMakedirs "/m";
               EGetIndex "http://h/b/"; EPrint (MExploring "http://h/b/a/");
               EMakedirs "/m/a"; EGetIndex "http://h/b/a/";
               EPrint (MAttempt "http://h/b/a/y.iso");
               ESubprocess
                 ["aria2c"; "-c"; "--dir"; "/m/a"; "http://h/b/a/y.iso"];
               EPrint (MDownloadDone "http://h/b/a/y.iso");
               EPrint (MDirSeen "http://h/b/");
               EPrint (MAttempt "http://h/b/x.iso");
               ESubprocess ["aria2c"; "-c"; "--dir"; "/m"; "http://h/b/x.iso"];
               EPrint (MDownloadDone "http://h/b/x.iso");
               EPrint MAllDone; EPrint (MSaved 2)]) as Htrace.
    { vm_compute. reflexivity. }
    intros url Hurl. unfold attempted in Hurl. rewrite Htrace in Hurl.
    repeat (apply elem_of_cons in Hurl as [[= ->]|Hurl]).
    + vm_compute. reflexivity.
    + vm_compute. reflexivity.
    + exfalso. by apply elem_of_nil in Hurl.
  - apply (bool_decide_unpack _). vm_compute. exact I.
Defined.

(** * Further properties of the code *)

(** ** Normalization and local paths *)

Lemma string_app_cons (c : ascii) (s t : string) :
  String c s +:+ t = String c (s +:+ t).
Proof. reflexivity. Qed.

Lemma string_app_nil_r (s : string) : s +:+ "" = s.
Proof.
  induction s as [|c s IH]; [done|]. by rewrite string_app_cons, IH.
Qed.

Lemma string_app_assoc (s t u : string) : (s +:+ t) +:+ u = s +:+ (t +:+ u).
Proof.
  induction s as [|c s IH]; [done|]. by rewrite !string_app_cons, IH.
Qed.

Lemma rev_app_append (s t : string) :
  String.rev_app s t = String.rev s +:+ t.
Proof.
  revert t. induction s as [|c s IH]; intros t; [done|].
  unfold String.rev. cbn [String.rev_app].
  rewrite (IH (String c t)), (IH (String c "")).
  by rewrite string_app_assoc.
Qed.

Lemma rev_cons (c : ascii) (s : string) :
  String.rev (String c s) = String.rev s +:+ String c "".
Proof. unfold String.rev at 1. cbn [String.rev_app]. apply rev_app_append. Qed.

Lemma rev_append (s t : string) :
  String.rev (s +:+ t) = String.rev t +:+ String.rev s.
Proof.
  induction s as [|c s IH]; [by rewrite string_app_nil_r|].
  by rewrite string_app_cons, !rev_cons, IH, string_app_assoc.
Qed.

Lemma rev_involutive (s : string) : String.rev (String.rev s) = s.
Proof.
  induction s as [|c s IH]; [done|].
  by rewrite rev_cons, rev_append, IH.
Qed.

Lemma startswith_empty (s : string) : PyStr.startswith s "" = true.
Proof. by destruct s. Qed.

Lemma startswith_slash_cons (c : ascii) (s : string) :
  PyStr.startswith (String c s) "/" = Ascii.eqb c PyStr.slash.
Proof.
  cbn [PyStr.startswith]. rewrite startswith_empty, andb_true_r.
  apply Ascii.eqb_sym.
Qed.

(** [lstrip] splits a string into its leading slashes and a rest that does
    not start with a slash. *)
Lemma lstrip_slash_split (s : string) :
  ∃ z, s = z +:+ PyStr.lstrip_slash s
       ∧ PyStr.startswith (PyStr.lstrip_slash s) "/" = false.
Proof.
  induction s as [|c s (z & Hz & Hs)]; [by exists ""|].
  cbn [PyStr.lstrip_slash].
  destruct (Ascii.eqb c PyStr.slash) eqn:Hc.
  - exists (String c z). split; [|done]. by rewrite string_app_cons, <- Hz.
  - exists "". split; [done|]. by rewrite startswith_slash_cons.
Qed.

Lemma lstrip_slash_fixed (s : string) :
  PyStr.startswith s "/" = false → PyStr.lstrip_slash s = s.
Proof.
  destruct s as [|c s]; [done|]. rewrite startswith_slash_cons.
  cbn [PyStr.lstrip_slash]. by intros ->.
Qed.

(** [rstrip] removes a suffix. *)
Lemma rstrip_slash_prefix (s : string) :
  ∃ z, s = PyStr.rstrip_slash s +:+ z.
Proof.
  destruct (lstrip_slash_split (String.rev s)) as (z & Hz & _).
  exists (String.rev z). unfold PyStr.rstrip_slash.
  by rewrite <- rev_append, <- Hz, rev_involutive.
Qed.

Lemma startswith_slash_append (p z : string) :
  PyStr.startswith (p +:+ z) "/" = false → PyStr.startswith p "/" = false.
Proof.
  destruct p as [|c p]; [done|].
  by rewrite string_app_cons, !startswith_slash_cons.
Qed.

Lemma strip_slash_relative (h : string) :
  PyStr.startswith (PyStr.strip_slash h) "/" = false.
Proof.
  unfold PyStr.strip_slash.
  destruct (lstrip_slash_split h) as (_ & _ & Hl).
  destruct (rstrip_slash_prefix (PyStr.lstrip_slash h)) as [z Hz].
  rewrite Hz in Hl. by eapply startswith_slash_append.
Qed.

Lemma basename_no_slash (p : string) :
  PyStr.has_slash (PyStr.basename p) = false.
Proof.
  induction p as [|c p IH]; [done|]. cbn [PyStr.basename].
  destruct (PyStr.has_slash p) eqn:Hp; [done|].
  destruct (Ascii.eqb c PyStr.slash) eqn:Hc; [done|].
  cbn. by rewrite Hc, Hp.
Qed.

Lemma no_slash_relative (s : string) :
  PyStr.has_slash s = false → PyStr.startswith s "/" = false.
Proof.
  destruct s as [|c s]; [done|]. rewrite startswith_slash_cons.
  cbn [PyStr.has_slash]. by destruct (Ascii.eqb c PyStr.slash).
Qed.

Lemma path_join_relative (a b : string) :
  PyStr.startswith b "/" = false →
  PyStr.startswith (PyStr.path_join a b) a = true
  ∧ (PyStr.path_join a b = a +:+ b ∨ PyStr.path_join a b = a +:+ "/" +:+ b).
Proof.
  intros Hb. unfold PyStr.path_join. rewrite Hb.
  destruct (String.eqb a "" || PyStr.endswith a "/");
    (split; [apply startswith_append | auto]).
Qed.

Lemma rstrip_slash_snoc (s : string) :
  PyStr.rstrip_slash (s +:+ "/") = PyStr.rstrip_slash s.
Proof.
  unfold PyStr.rstrip_slash. rewrite rev_append.
  change (String.rev "/") with "/". by rewrite string_app_cons.
Qed.

Lemma startswith_trans (a b c : string) :
  PyStr.startswith a b = true → PyStr.startswith b c = true →
  PyStr.startswith a c = true.
Proof.
  revert a b. induction c as [|x c IH]; intros a b Hab Hbc.
  { apply startswith_empty. }
  destruct b as [|y b]; [by destruct c|].
  destruct a as [|z a]; [done|].
  cbn [PyStr.startswith] in *.
  apply andb_true_iff in Hab as [Hyz Hab].
  apply andb_true_iff in Hbc as [Hxy Hbc].
  apply Ascii.eqb_eq in Hyz as ->. rewrite Hxy. by apply (IH a b).
Qed.

(** ** State store *)

(** Save and load are inverse: the file [save_visited_urls] writes is read
    back by [load_visited_urls] as the very set that was saved, with the load
    message counting its members; nothing is raised. *)
Theorem saved_set_loads_back (st : State) :
  load_visited_urls (visited_file (save_visited_urls st))
  = Ok (visited_urls st, [MLoaded (size (visited_urls st))])
  ∧ visited_urls (save_visited_urls st) = visited_urls st.
Proof. split; [apply load_visited_document | done]. Qed.


(** ** Transfer dispatcher *)

Lemma now_makedirs (path : string) (st : State) :
  now (makedirs path st) = S (now st).
Proof. unfold now. cbn. rewrite length_app. cbn. lia. Qed.

(** The direct fetch creates the target directory before the GET, whatever
    the GET gives; it succeeds exactly when the streaming GET does; on success
    the error log is untouched and on failure the URL is recorded; its only
    effects are the directory creation, one GET and one message. *)
Theorem direct_fetch_outcome (E : Env) (file_url local_dir : string)
    (st : State) :
  let r := download_file_with_aiohttp E file_url local_dir st in
  let filename := PyStr.path_join local_dir (PyStr.basename file_url) in
  r.1 = get_file E (S (now st)) file_url
  ∧ local_dir ∈ local_dirs r.2
  ∧ (r.1 = true → error_file r.2 = error_file st)
  ∧ (r.1 = false →
       error_file r.2 = save_error_url file_url (error_file st)
       ∧ file_url ∈ error_entries (error_file r.2))
  ∧ ∃ m, trace r.2
         = trace st ++ [EMakedirs local_dir; EGetFile file_url filename;
                        EPrint m].
Proof.
  intros r filename. subst r. unfold download_file_with_aiohttp.
  rewrite now_makedirs.
  destruct (get_file E (S (now st)) file_url); cbn [fst snd];
    repeat split; try done;
    try (cbn; apply elem_of_union_l; by apply elem_of_singleton);
    try apply error_entries_recorded;
    eexists; cbn; by rewrite <- !app_assoc.
Qed.

(** The file of a direct fetch is written directly inside the target
    directory: its name is the target directory, a separator when the
    directory does not end with one, and a base name without any slash. *)
Theorem direct_fetch_stays_in_local_dir (E : Env) (file_url local_dir : string)
    (st : State) :
  let filename := PyStr.path_join local_dir (PyStr.basename file_url) in
  EGetFile file_url filename
    ∈ trace (download_file_with_aiohttp E file_url local_dir st).2
  ∧ PyStr.startswith filename local_dir = true
  ∧ PyStr.has_slash (PyStr.basename file_url) = false
  ∧ (filename = local_dir +:+ PyStr.basename file_url
     ∨ filename = local_dir +:+ "/" +:+ PyStr.basename file_url).
Proof.
  intros filename.
  destruct (path_join_relative local_dir (PyStr.basename file_url))
    as [Hstart Hshape].
  { apply no_slash_relative, basename_no_slash. }
  split; [|by auto using basename_no_slash].
  unfold download_file_with_aiohttp.
  destruct (get_file E _ file_url);
    cbn [snd trace say emit record_error makedirs];
    apply elem_of_app; left; apply elem_of_app; right;
    by apply list_elem_of_singleton.
Qed.

(** The dispatcher, on either strategy, leaves the two sets of the crawler
    and the visited file alone; it touches the error log only when it fails,
    and then by [save_error_url] on the URL. *)
Theorem dispatcher_changes_only_error_log (E : Env)
    (file_url local_dir : string) (aria2_options : list string) (st : State) :
  let r := download_file_with_aria2 E file_url local_dir aria2_options st in
  visited_urls r.2 = visited_urls st
  ∧ visited_directories r.2 = visited_directories st
  ∧ visited_file r.2 = visited_file st
  ∧ (r.1 = true → error_file r.2 = error_file st)
  ∧ (r.1 = false → error_file r.2 = save_error_url file_url (error_file st)).
Proof.
  unfold download_file_with_aria2, download_file_with_aiohttp.
  repeat case_match; cbn [fst snd]; repeat split; done.
Qed.

(** The segmented download starts exactly one subprocess, with the command
    [aria2c -c --dir local_dir], then the caller's options in their order,
    then the URL; it prints the attempt before and one message after, makes no
    GET of its own and creates no directory. *)
Theorem segmented_download_effects (E : Env) (file_url local_dir : string)
    (aria2_options : list string) (st : State) :
  PyStr.endswith file_url ".metalink" = false →
  let r := download_file_with_aria2 E file_url local_dir aria2_options st in
  local_dirs r.2 = local_dirs st
  ∧ ∃ m, trace r.2
         = trace st ++
           [EPrint (MAttempt file_url);
            ESubprocess
              (["aria2c"; "-c"; "--dir"; local_dir] ++ aria2_options
               ++ [file_url]);
            EPrint m].
Proof.
  intros Hm. cbv zeta. unfold download_file_with_aria2. rewrite Hm.
  repeat case_match; cbn [snd]; (split; [done|]);
    eexists; cbn; by rewrite <- !app_assoc.
Qed.

(** A transfer of [x.iso] with the default option [-x 16]. *)
Lemma segmented_download_effects_witness :
  local_dirs
    (download_file_with_aria2 Sample.world "http://h/b/x.iso" "/m"
       ["-x"; "16"] Sample.start).2
  = local_dirs Sample.start.
Proof.
  apply (segmented_download_effects Sample.world "http://h/b/x.iso" "/m"
           ["-x"; "16"] Sample.start).
  reflexivity.
Defined.

Lemma lower_char_eqb (a b : ascii) :
  Ascii.eqb a b = true →
  Ascii.eqb (PyStr.lower_char a) (PyStr.lower_char b) = true.
Proof. intros ->%Ascii.eqb_eq. apply Ascii.eqb_refl. Qed.

Lemma startswith_lower (s p : string) :
  PyStr.startswith s p = true →
  PyStr.startswith (PyStr.lower s) (PyStr.lower p) = true.
Proof.
  revert s. induction p as [|a p IH]; intros s; [intros _; by destruct s|].
  destruct s as [|b s]; [done|].
  cbn [PyStr.startswith PyStr.lower].
  intros [Hab Hsp]%andb_true_iff.
  by rewrite (lower_char_eqb _ _ Hab), (IH _ Hsp).
Qed.

Lemma contains_lower (hay needle : string) :
  PyStr.contains hay needle = true →
  PyStr.contains (PyStr.lower hay) (PyStr.lower needle) = true.
Proof.
  induction hay as [|c hay IH].
  - cbn [PyStr.contains PyStr.lower]. rewrite !orb_false_r.
    apply (startswith_lower "").
  - cbn [PyStr.contains PyStr.lower].
    intros [Hs|Hc]%orb_true_iff.
    + apply startswith_lower in Hs. cbn [PyStr.lower] in Hs. by rewrite Hs.
    + rewrite (IH Hc). apply orb_true_r.
Qed.

(** The outcome markers are matched without regard to case: when the
    subprocess exits with code 0 and its output contains the words "download
    completed" in any mix of upper and lower case, the call succeeds with the
    completion message. *)
Theorem completion_marker_ignores_case (E : Env) (file_url local_dir : string)
    (aria2_options : list string) (st : State) (out err marker : string) :
  PyStr.endswith file_url ".metalink" = false →
  run_aria2c E (S (now st)) (aria2_command file_url local_dir aria2_options)
  = Exited 0 out err →
  PyStr.lower marker = "download completed" →
  PyStr.contains out marker = true →
  download_file_with_aria2 E file_url local_dir aria2_options st
  = (true,
     say (MDownloadDone file_url)
       (emit (ESubprocess (aria2_command file_url local_dir aria2_options))
          (say (MAttempt file_url) st))).
Proof.
  intros Hm Hrun Hmarker Hout.
  assert (Hnow : now (say (MAttempt file_url) st) = S (now st)).
  { unfold now, say, emit. cbn. rewrite length_app. cbn. lia. }
  unfold download_file_with_aria2. rewrite Hm, Hnow, Hrun.
  cbn [Z.eqb]. apply contains_lower in Hout. rewrite Hmarker in Hout.
  by rewrite Hout.
Qed.

(** [aria2c] answering "Download completed." with a capital letter. *)
Lemma completion_marker_ignores_case_witness :
  (download_file_with_aria2 Sample.world "http://h/b/x.iso" "/m" []
     Sample.start).1 = true.
Proof.
  rewrite (completion_marker_ignores_case Sample.world "http://h/b/x.iso" "/m"
             [] Sample.start "Download completed." "" "Download completed");
    reflexivity.
Defined.

(** ** The link loop *)

(** A file linked twice on one page: after a successful transfer the second
    link is skipped with the "already downloaded" message and no further
    transfer; after a failed transfer the URL is still absent from the
    Visited Set and the second link goes through the loop body again. *)
Theorem repeated_file_link (E : Env) (base_sync_url : string)
    (aria2_options : list string)
    (recurse : string → string → State → option State)
    (current_url local_path h : string) (rest : list (option string))
    (st : State) :
  let next_url := urljoin E current_url h in
  let r := download_file_with_aria2 E next_url local_path aria2_options st in
  let loop := process_links E base_sync_url aria2_options recurse current_url
                local_path in
  link_filtered E (Some h) = false →
  PyStr.startswith next_url base_sync_url = true →
  next_url ≠ current_url →
  PyStr.endswith h "/" = false →
  next_url ∉ visited_urls st →
  (r.1 = true →
     loop (Some h :: Some h :: rest) st
     = loop rest
         (say (MFileSeen next_url)
            (save_visited_urls (add_visited_url next_url r.2))))
  ∧ (r.1 = false →
       loop (Some h :: Some h :: rest) st = loop (Some h :: rest) r.2
       ∧ next_url ∉ visited_urls r.2).
Proof.
  intros next_url r loop Hf Hscope Hself Hfile Hnew.
  assert (Hstep : ∀ st0,
    process_link E base_sync_url aria2_options recurse current_url local_path
      (Some h) st0
    = if decide (next_url ∈ visited_urls st0) then
        Some (say (MFileSeen next_url) st0)
      else
        let r0 := download_file_with_aria2 E next_url local_path
                    aria2_options st0 in
        if r0.1 then Some (save_visited_urls (add_visited_url next_url r0.2))
        else Some r0.2).
  { intros st0. unfold process_link. rewrite Hf. cbn [default id]. cbv zeta.
    unfold route_link. fold next_url. rewrite Hscope. cbn [negb].
    rewrite (proj2 (String.eqb_neq _ _) Hself), Hfile.
    destruct (decide (next_url ∈ visited_urls st0)); [done|].
    cbv zeta.
    by destruct (download_file_with_aria2 E next_url local_path aria2_options
                   st0) as [[] ?]. }
  destruct (download_file_with_aria2_frame E next_url local_path
              aria2_options st) as (Hv & _ & _). fold r in Hv.
  subst loop. cbn [process_links]. rewrite !Hstep.
  rewrite (decide_False (P := next_url ∈ visited_urls st)) by done.
  cbv zeta. fold r. split; intros Hr; rewrite Hr; cbv beta iota.
  - rewrite Hstep, decide_True; [done|].
    cbn. apply elem_of_union_l. by apply elem_of_singleton.
  - split; [|by rewrite Hv]. by rewrite Hstep.
Qed.

(** The link [x.iso] listed twice, transferred with success the first time. *)
Lemma repeated_file_link_witness :
  process_links Sample.world "http://h/b/" [] (λ _ _ _, None) "http://h/b/"
    "/m" [Some "x.iso"; Some "x.iso"] Sample.start
  = Some
      (say (MFileSeen "http://h/b/x.iso")
         (save_visited_urls
            (add_visited_url "http://h/b/x.iso"
               (download_file_with_aria2 Sample.world "http://h/b/x.iso" "/m"
                  [] Sample.start).2))).
Proof.
  apply (repeated_file_link Sample.world "http://h/b/" [] (λ _ _ _, None)
           "http://h/b/" "/m" "x.iso" [] Sample.start);
    try reflexivity; [discriminate | apply not_elem_of_empty].
Defined.

(** ** Run controller *)

Lemma target_base_url_idempotent (base_url : string) :
  target_base_url (target_base_url base_url) = target_base_url base_url.
Proof.
  unfold target_base_url at 1. by rewrite target_base_url_slash.
Qed.


(** ** What a crawl keeps *)

Lemma fetched_app (evs1 evs2 : list Event) :
  fetched (evs1 ++ evs2) = fetched evs1 ++ fetched evs2.
Proof. apply omap_app. Qed.

Lemma fetched_plain (evs : list Event) :
  Forall plain evs → fetched evs = [].
Proof.
  induction 1 as [|e evs He _ IH]; [done|].
  destruct e as [[]| | | |]; try done; exact IH.
Qed.

Lemma plain_not_attempt (evs : list Event) (u : string) :
  Forall plain evs → EPrint (MAttempt u) ∉ evs.
Proof.
  intros Hall Hin. by apply (proj1 (Forall_forall _ _) Hall) in Hin.
Qed.

Lemma save_error_url_entries (u : string) (f : FileState) :
  error_entries f `prefix_of` error_entries (save_error_url u f)
  ∧ (∀ v, v ∈ error_entries (save_error_url u f) →
          v = u ∨ v ∈ error_entries f)
  ∧ (NoDup (error_entries f) → NoDup (error_entries (save_error_url u f))).
Proof.
  rewrite error_entries_save. case_decide as Hin; repeat split; try done.
  - auto.
  - by apply prefix_app_r.
  - intros v [?|Hv%list_elem_of_singleton]%elem_of_app; auto.
  - intros Hnd. apply NoDup_app. repeat split; [done| |apply NoDup_singleton].
    intros v Hv Hu%list_elem_of_singleton. by subst.
Qed.

Lemma audit_refl (st : State) : audit st st [].
Proof.
  split; try done.
  - by rewrite app_nil_r.
  - by intros u ?; left.
  - by intros u ?%elem_of_nil.
  - apply NoDup_nil_2.
  - by intros x ?%elem_of_nil.
  - by intros u ?; left.
  - by left.
Qed.

Lemma audit_trans (st1 st2 st3 : State) (evs1 evs2 : list Event) :
  audit st1 st2 evs1 → audit st2 st3 evs2 → audit st1 st3 (evs1 ++ evs2).
Proof.
  intros A B. split.
  - by rewrite (audit_trace _ _ _ B), (audit_trace _ _ _ A), app_assoc.
  - etrans; [apply A | apply B].
  - intros u Hu. rewrite elem_of_app.
    destruct (audit_added _ _ _ B u Hu) as [Hu2|?]; [|by auto].
    destruct (audit_added _ _ _ A u Hu2); auto.
  - intros u [Hu|Hu]%elem_of_app; [by apply A|].
    intros Hin. apply (audit_fresh _ _ _ B u Hu).
    by apply (grows_visited_urls _ _ (audit_grows _ _ _ A)).
  - rewrite fetched_app. apply NoDup_app. repeat split; [apply A| |apply B].
    intros x Hx1 Hx2.
    by destruct (audit_fetched_new _ _ _ A x Hx1),
                (audit_fetched_new _ _ _ B x Hx2).
  - intros x. rewrite fetched_app.
    intros [Hx|Hx]%elem_of_app.
    + destruct (audit_fetched_new _ _ _ A x Hx) as [Hin Hout]. split; [|done].
      by apply (grows_visited_directories _ _ (audit_grows _ _ _ B)).
    + destruct (audit_fetched_new _ _ _ B x Hx) as [Hin Hout]. split; [done|].
      intros Hx1. apply Hout.
      by apply (grows_visited_directories _ _ (audit_grows _ _ _ A)).
  - etrans; [apply A | apply B].
  - intros u Hu. rewrite elem_of_app.
    destruct (audit_errors_new _ _ _ B u Hu) as [Hu2|?]; [|by auto].
    destruct (audit_errors_new _ _ _ A u Hu2); auto.
  - intros Hnd. by apply B, A.
  - destruct (audit_written _ _ _ B) as [[Hv Hf]|Hw]; [|by right].
    destruct (audit_written _ _ _ A) as [[Hv' Hf']|Hw].
    + left. split; congruence.
    + right. unfold written_through in *. congruence.
Qed.

Lemma audited_refl (st : State) : audited st st.
Proof. eexists. apply audit_refl. Qed.

Lemma audited_trans (st1 st2 st3 : State) :
  audited st1 st2 → audited st2 st3 → audited st1 st3.
Proof. intros [? A] [? B]. eexists. by eapply audit_trans. Qed.

(** A stretch that only has plain effects and leaves the Visited Set and the
    two state files alone. *)
Lemma audit_plain (st st' : State) (evs : list Event) :
  trace st' = trace st ++ evs →
  Forall plain evs →
  grows st st' →
  visited_urls st' = visited_urls st →
  visited_file st' = visited_file st →
  error_file st' = error_file st →
  audit st st' evs.
Proof.
  intros Ht Hp Hg Hv Hvf Hef. split; try done.
  - intros u Hu. left. by rewrite <- Hv.
  - intros u Hu. by apply plain_not_attempt in Hu.
  - rewrite fetched_plain by done. apply NoDup_nil_2.
  - intros x. rewrite fetched_plain by done. by intros ?%elem_of_nil.
  - by rewrite Hef.
  - intros u Hu. left. by rewrite <- Hef.
  - by rewrite Hef.
  - by left.
Qed.

Lemma audited_say (m : Msg) (st : State) :
  plain (EPrint m) → audited st (say m st).
Proof.
  intros Hm. exists [EPrint m].
  apply audit_plain; try done; [by constructor | apply grows_say].
Qed.

Lemma audited_add_visited_directory (x : string) (st : State) :
  audited st (add_visited_directory x st).
Proof.
  exists []. apply audit_plain; try done.
  - cbn. by rewrite app_nil_r.
  - apply grows_add_visited_directory.
Qed.

Lemma audited_entered (current_url local_path : string) (st : State) :
  PyStr.rstrip_slash current_url ∉ visited_directories st →
  audited st (entered current_url local_path st).
Proof.
  intros Hnew.
  exists [EPrint (MExploring current_url); EMakedirs local_path;
          EGetIndex current_url].
  split; try done.
  - apply trace_entered.
  - unfold entered. repeat grows_step.
  - by intros u ?; left.
  - intros u Hu. repeat (apply elem_of_cons in Hu as [[=]|Hu]).
    by apply elem_of_nil in Hu.
  - cbn. apply NoDup_singleton.
  - intros x Hx. cbn in Hx. apply list_elem_of_singleton in Hx as ->.
    split; [|done]. cbn. apply elem_of_union_l. by apply elem_of_singleton.
  - by intros u ?; left.
  - by left.
Qed.

Section Steps.
Context (P : Event → Prop).

Lemma extends_by_makedirs path st :
  P (EMakedirs path) → extends_by P st (makedirs path st).
Proof. intros HP. exists [EMakedirs path]. split; [done | by constructor]. Qed.

Lemma extends_by_record_error url st : extends_by P st (record_error url st).
Proof. by apply extends_by_silent. Qed.

Lemma extends_by_save_visited_urls st : extends_by P st (save_visited_urls st).
Proof. by apply extends_by_silent. Qed.

Lemma extends_by_add_visited_url url st :
  extends_by P st (add_visited_url url st).
Proof. by apply extends_by_silent. Qed.

Lemma extends_by_add_visited_directory url st :
  extends_by P st (add_visited_directory url st).
Proof. by apply extends_by_silent. Qed.

Lemma extends_by_mono (Q : Event → Prop) st st' :
  (∀ e, P e → Q e) → extends_by P st st' → extends_by Q st st'.
Proof.
  intros HPQ (evs & Ht & Hevs). exists evs. split; [done|].
  by eapply Forall_impl.
Qed.

End Steps.

(** Chains of effects for any property of effects: [extends_step] peels the
    outermost operation and leaves the property of an emitted effect to
    [tac]. *)
Ltac extends_step tac :=
  first
    [ apply extends_by_refl
    | eapply extends_by_trans; [|apply extends_by_makedirs; tac]
    | eapply extends_by_trans; [|apply extends_by_emit; tac]
    | eapply extends_by_trans; [|apply extends_by_record_error]
    | eapply extends_by_trans; [|apply extends_by_save_visited_urls]
    | eapply extends_by_trans; [|apply extends_by_add_visited_url]
    | eapply extends_by_trans; [|apply extends_by_add_visited_directory] ].

Lemma download_plain (E : Env) (file_url local_dir : string)
    (aria2_options : list string) (st : State) :
  extends_by plain (say (MAttempt file_url) st)
    (download_file_with_aria2 E file_url local_dir aria2_options st).2.
Proof.
  unfold download_file_with_aria2, download_file_with_aiohttp.
  repeat case_match; cbn [snd]; repeat extends_step ltac:(exact I).
Qed.

Lemma download_error_file (E : Env) (file_url local_dir : string)
    (aria2_options : list string) (st : State) :
  let st' := (download_file_with_aria2 E file_url local_dir aria2_options st).2 in
  error_file st' = error_file st
  ∨ error_file st' = save_error_url file_url (error_file st).
Proof.
  unfold download_file_with_aria2, download_file_with_aiohttp.
  repeat case_match; cbn [snd]; auto.
Qed.

(** One transfer of a URL that is not in the Visited Set. *)
Lemma audit_download (E : Env) (file_url local_dir : string)
    (aria2_options : list string) (st : State) :
  file_url ∉ visited_urls st →
  let st' := (download_file_with_aria2 E file_url local_dir aria2_options st).2 in
  ∃ evs, audit st st' evs ∧ EPrint (MAttempt file_url) ∈ evs.
Proof.
  intros Hnew st'.
  destruct (download_plain E file_url local_dir aria2_options st)
    as (evs & Ht & Hplain). fold st' in Ht.
  destruct (download_file_with_aria2_frame E file_url local_dir aria2_options
              st) as (Hv & _ & Hvf). fold st' in Hv, Hvf.
  pose proof (grows_download_file_with_aria2 E file_url local_dir
                aria2_options st) as Hg. fold st' in Hg.
  pose proof (download_error_file E file_url local_dir aria2_options st)
    as Hef. fold st' in Hef.
  destruct (save_error_url_entries file_url (error_file st))
    as (Hkept & Hentries & Hnodup).
  exists (EPrint (MAttempt file_url) :: evs).
  split; [|apply list_elem_of_here]. split; try done.
  - rewrite Ht. cbn. by rewrite <- app_assoc.
  - intros u Hu. left. by rewrite <- Hv.
  - intros u [[= ->]|Hu]%elem_of_cons; [done|].
    by apply plain_not_attempt in Hu.
  - cbn. rewrite fetched_plain by done. apply NoDup_nil_2.
  - intros x. cbn. rewrite fetched_plain by done. by intros ?%elem_of_nil.
  - by destruct Hef as [-> | ->].
  - intros u Hu. destruct Hef as [Hef|Hef]; rewrite Hef in Hu; [by left|].
    destruct (Hentries u Hu) as [->|?]; [right; apply list_elem_of_here|by left].
  - by destruct Hef as [-> | ->].
  - by left.
Qed.

(** A successful transfer followed by the bookkeeping of the crawler. *)
Lemma audited_transfer (E : Env) (file_url local_dir : string)
    (aria2_options : list string) (st : State) :
  file_url ∉ visited_urls st →
  audited st
    (save_visited_urls
       (add_visited_url file_url
          (download_file_with_aria2 E file_url local_dir aria2_options st).2)).
Proof.
  intros Hnew.
  destruct (audit_download E file_url local_dir aria2_options st Hnew)
    as (evs & A & Hatt).
  destruct (download_file_with_aria2_frame E file_url local_dir aria2_options
              st) as (Hv & _ & _).
  exists evs. split.
  - apply A.
  - etrans; [apply A|]. repeat grows_step.
  - intros u. cbn. rewrite Hv.
    intros [->%elem_of_singleton|?]%elem_of_union; auto.
  - apply A.
  - apply A.
  - intros x Hx. by apply A.
  - apply A.
  - intros u Hu. by apply A.
  - intros Hnd. by apply A.
  - by right.
Qed.

Section Audit.
Context (E : Env) (base_sync_url : string) (aria2_options : list string).

Local Abbreviation route := (route_link E base_sync_url aria2_options).
Local Abbreviation step := (process_link E base_sync_url aria2_options).
Local Abbreviation loop := (process_links E base_sync_url aria2_options).
Local Abbreviation crawl := (sync_mirror E base_sync_url aria2_options).

Lemma audited_route_link recurse current_url local_path href next_url st st' :
  recursion_audited recurse →
  route recurse current_url local_path href next_url st = Some st' →
  audited st st'.
Proof.
  intros Hrec. unfold route_link.
  destruct (negb (PyStr.startswith next_url base_sync_url)).
  { intros [= <-]. by apply audited_say. }
  destruct (String.eqb next_url current_url).
  { intros [= <-]. apply audited_refl. }
  destruct (PyStr.endswith href "/").
  - case_decide; [|by apply Hrec].
    intros [= <-]. by apply audited_say.
  - case_decide as Hseen.
    { intros [= <-]. by apply audited_say. }
    pose proof (audited_transfer E next_url local_path aria2_options st Hseen)
      as Hok.
    destruct (audit_download E next_url local_path aria2_options st Hseen)
      as (evs & Hfail & _).
    destruct (download_file_with_aria2 E next_url local_path aria2_options st)
      as [[] st1]; intros [= <-]; [exact Hok | by exists evs].
Qed.

Lemma audited_process_links recurse current_url local_path links st st' :
  recursion_audited recurse →
  loop recurse current_url local_path links st = Some st' →
  audited st st'.
Proof.
  intros Hrec. revert st.
  induction links as [|href rest IH]; intros st; cbn [process_links].
  - intros [= <-]. apply audited_refl.
  - destruct (step recurse current_url local_path href st)
      as [st1|] eqn:Hl; [|done].
    intros Hrest. eapply audited_trans; [|by apply IH].
    revert Hl. unfold process_link. case_match.
    + intros [= <-]. apply audited_refl.
    + by apply audited_route_link.
Qed.

Lemma audited_sync_mirror fuel : recursion_audited (crawl fuel).
Proof.
  induction fuel as [|fuel IH]; intros url path st st'; [done|].
  rewrite sync_mirror_unfold. cbv zeta.
  case_decide as Hseen.
  { intros [= <-]. by apply audited_say. }
  case_decide.
  { intros [= <-]. eapply audited_trans;
      [apply audited_add_visited_directory | by apply audited_say]. }
  pose proof (audited_entered url path st Hseen) as Hent.
  destruct (fetch_index E url) as [[|href links]| |];
    try (intros [= <-]; eapply audited_trans;
         [exact Hent | by apply audited_say]).
  intros Hloop. eapply audited_trans; [exact Hent|].
  by eapply audited_process_links.
Qed.

End Audit.

Lemma sample_crawl_returns :
  sync_mirror Sample.world "http://h/b/" [] 2 "http://h/b/" "/m" Sample.start
  = Some sample_crawled.
Proof. vm_compute. reflexivity. Qed.

(** A URL enters the Visited Set only through the dispatcher: every member of
    the Visited Set after a crawl call was a member before, or the call
    invoked the dispatcher on it, and then the URL starts with the base
    scope. *)
Theorem visited_additions_were_attempted (E : Env) (base_sync_url : string)
    (aria2_options : list string) (fuel : nat)
    (current_url local_path : string) (st st' : State) :
  sync_mirror E base_sync_url aria2_options fuel current_url local_path st
  = Some st' →
  PyStr.startswith current_url base_sync_url = true →
  ∃ evs,
    trace st' = trace st ++ evs
    ∧ ∀ u, u ∈ visited_urls st' →
           u ∈ visited_urls st
           ∨ (EPrint (MAttempt u) ∈ evs
              ∧ PyStr.startswith u base_sync_url = true).
Proof.
  intros Hrun Hscope.
  destruct (audited_sync_mirror _ _ _ _ _ _ _ _ Hrun) as [evs A].
  destruct (in_scope_sync_mirror _ _ _ _ _ _ _ _ Hscope Hrun)
    as (evs' & Ht & Hin).
  exists evs. split; [apply A|]. intros u Hu.
  destruct (audit_added _ _ _ A u Hu) as [?|Hatt]; [by left|right].
  split; [done|].
  assert (evs' = evs) as ->.
  { apply (app_inv_head (trace st)). rewrite <- Ht. apply A. }
  by apply (proj1 (Forall_forall _ _) Hin _ Hatt u).
Qed.

(** The sample crawl: both files it holds as visited were attempted. *)
Lemma visited_additions_were_attempted_witness :
  ∃ evs,
    trace sample_crawled = trace Sample.start ++ evs
    ∧ ∀ u, u ∈ visited_urls sample_crawled →
           u ∈ visited_urls Sample.start
           ∨ (EPrint (MAttempt u) ∈ evs
              ∧ PyStr.startswith u "http://h/b/" = true).
Proof.
  apply (visited_additions_were_attempted Sample.world "http://h/b/" [] 2
           "http://h/b/" "/m" Sample.start sample_crawled sample_crawl_returns).
  reflexivity.
Defined.

(** No transfer of what is already there: a crawl call never invokes the
    dispatcher on a URL that was in the Visited Set when the call started. *)
Theorem visited_urls_never_attempted (E : Env) (base_sync_url : string)
    (aria2_options : list string) (fuel : nat)
    (current_url local_path : string) (st st' : State) :
  sync_mirror E base_sync_url aria2_options fuel current_url local_path st
  = Some st' →
  ∃ evs,
    trace st' = trace st ++ evs
    ∧ ∀ u, u ∈ visited_urls st → EPrint (MAttempt u) ∉ evs.
Proof.
  intros Hrun.
  destruct (audited_sync_mirror _ _ _ _ _ _ _ _ Hrun) as [evs A].
  exists evs. split; [apply A|]. intros u Hu Hatt.
  by apply (audit_fresh _ _ _ A u Hatt).
Qed.

Lemma visited_urls_never_attempted_witness :
  ∃ evs,
    trace sample_crawled = trace Sample.start ++ evs
    ∧ ∀ u, u ∈ visited_urls Sample.start → EPrint (MAttempt u) ∉ evs.
Proof.
  apply (visited_urls_never_attempted Sample.world "http://h/b/" [] 2
           "http://h/b/" "/m" Sample.start sample_crawled sample_crawl_returns).
Defined.

(** Each directory is fetched at most once in a run: the index pages a crawl
    call fetches have pairwise distinct normalized URLs, each of them new to
    the Visited-Directories Set at the start of the call and a member of it
    at the end. *)
Theorem index_pages_fetched_once (E : Env) (base_sync_url : string)
    (aria2_options : list string) (fuel : nat)
    (current_url local_path : string) (st st' : State) :
  sync_mirror E base_sync_url aria2_options fuel current_url local_path st
  = Some st' →
  ∃ evs,
    trace st' = trace st ++ evs
    ∧ NoDup (fetched evs)
    ∧ ∀ x, x ∈ fetched evs →
           x ∈ visited_directories st' ∧ x ∉ visited_directories st.
Proof.
  intros Hrun.
  destruct (audited_sync_mirror _ _ _ _ _ _ _ _ Hrun) as [evs A].
  exists evs. split; [apply A|]. split; [apply A|]. intros x Hx. by apply A.
Qed.

Lemma index_pages_fetched_once_witness :
  ∃ evs,
    trace sample_crawled = trace Sample.start ++ evs
    ∧ NoDup (fetched evs)
    ∧ ∀ x, x ∈ fetched evs →
           x ∈ visited_directories sample_crawled
           ∧ x ∉ visited_directories Sample.start.
Proof.
  apply (index_pages_fetched_once Sample.world "http://h/b/" [] 2
           "http://h/b/" "/m" Sample.start sample_crawled sample_crawl_returns).
Defined.

(** A crawl call never drops or reorders a recorded error: the entries of the
    error log before the call are the front of the entries after it, every
    new entry is a URL the call invoked the dispatcher on, and a log without
    repeats stays without repeats. *)
Theorem error_log_kept_by_crawl (E : Env) (base_sync_url : string)
    (aria2_options : list string) (fuel : nat)
    (current_url local_path : string) (st st' : State) :
  sync_mirror E base_sync_url aria2_options fuel current_url local_path st
  = Some st' →
  error_entries (error_file st) `prefix_of` error_entries (error_file st')
  ∧ (NoDup (error_entries (error_file st)) →
     NoDup (error_entries (error_file st')))
  ∧ ∃ evs,
      trace st' = trace st ++ evs
      ∧ ∀ u, u ∈ error_entries (error_file st') →
             u ∈ error_entries (error_file st) ∨ EPrint (MAttempt u) ∈ evs.
Proof.
  intros Hrun.
  destruct (audited_sync_mirror _ _ _ _ _ _ _ _ Hrun) as [evs A].
  split; [apply A|]. split; [apply A|].
  exists evs. split; [apply A|]. intros u Hu. by apply A.
Qed.

Lemma error_log_kept_by_crawl_witness :
  error_entries (error_file Sample.start)
  `prefix_of` error_entries (error_file sample_crawled).
Proof.
  apply (error_log_kept_by_crawl Sample.world "http://h/b/" [] 2
           "http://h/b/" "/m" Sample.start sample_crawled sample_crawl_returns).
Defined.

(** Write-through: when a crawl call returns, either it changed neither the
    Visited Set nor the visited file, or the visited file holds exactly the
    Visited Set; so a file that held the set before the call holds it after,
    and loads back as the set. *)
Theorem visited_file_written_through (E : Env) (base_sync_url : string)
    (aria2_options : list string) (fuel : nat)
    (current_url local_path : string) (st st' : State) :
  sync_mirror E base_sync_url aria2_options fuel current_url local_path st
  = Some st' →
  ((visited_urls st' = visited_urls st ∧ visited_file st' = visited_file st)
   ∨ written_through st')
  ∧ (written_through st →
     written_through st'
     ∧ load_visited_urls (visited_file st')
       = Ok (visited_urls st', [MLoaded (size (visited_urls st'))])).
Proof.
  intros Hrun.
  destruct (audited_sync_mirror _ _ _ _ _ _ _ _ Hrun) as [evs A].
  split; [apply A|]. intros Hw.
  assert (written_through st') as Hw'.
  { destruct (audit_written _ _ _ A) as [[Hv Hf]|?]; [|done].
    unfold written_through in *. congruence. }
  split; [done|]. rewrite Hw'. apply load_visited_document.
Qed.

Lemma visited_file_written_through_witness :
  (visited_urls sample_crawled = visited_urls Sample.start
   ∧ visited_file sample_crawled = visited_file Sample.start)
  ∨ written_through sample_crawled.
Proof.
  apply (visited_file_written_through Sample.world "http://h/b/" [] 2
           "http://h/b/" "/m" Sample.start sample_crawled sample_crawl_returns).
Defined.

(** ** Directories seen again *)

Lemma sync_mirror_marks_visited (E : Env) (base_sync_url : string)
    (aria2_options : list string) (fuel : nat)
    (current_url local_path : string) (st st' : State) :
  sync_mirror E base_sync_url aria2_options fuel current_url local_path st
  = Some st' →
  PyStr.rstrip_slash current_url ∈ visited_directories st'.
Proof.
  destruct fuel as [|fuel]; [done|].
  rewrite sync_mirror_unfold. cbv zeta.
  case_decide as Hseen; [by intros [= <-]|].
  intros Hrun.
  assert (grows (add_visited_directory (PyStr.rstrip_slash current_url) st) st')
    as Hg.
  { revert Hrun.
    repeat case_match; try (intros [= <-]; unfold entered; by repeat grows_step).
    intros Hl%grows_process_links; [|apply grows_sync_mirror].
    etrans; [|exact Hl]. unfold entered. repeat grows_step. }
  apply (grows_visited_directories _ _ Hg). cbn.
  apply elem_of_union_l. by apply elem_of_singleton.
Qed.

(** Trailing slashes do not make a new directory: once a crawl call on a URL
    has returned, any later call in the run on that URL with one more
    trailing slash returns at the first guard, with the skip message as its
    only effect. *)
Theorem revisit_with_extra_slash_skipped (E : Env) (base_sync_url : string)
    (aria2_options : list string) (fuel fuel' : nat)
    (url local_path local_path' : string) (st st' st'' : State) :
  sync_mirror E base_sync_url aria2_options fuel url local_path st = Some st' →
  grows st' st'' →
  sync_mirror E base_sync_url aria2_options (S fuel') (url +:+ "/")
    local_path' st''
  = Some (say (MDirSeen (url +:+ "/")) st'').
Proof.
  intros Hrun Hg. apply sync_mirror_marks_visited in Hrun.
  rewrite sync_mirror_unfold. cbv zeta. rewrite rstrip_slash_snoc.
  rewrite decide_True; [done|].
  by apply (grows_visited_directories _ _ Hg).
Qed.

(** The sample tree crawled, then its base reached again as [http://h/b//]. *)
Lemma revisit_with_extra_slash_skipped_witness :
  sync_mirror Sample.world "http://h/b/" [] 1 "http://h/b//" "/elsewhere"
    sample_crawled
  = Some (say (MDirSeen "http://h/b//") sample_crawled).
Proof.
  apply (revisit_with_extra_slash_skipped Sample.world "http://h/b/" [] 2 0
           "http://h/b/" "/m" "/elsewhere" Sample.start sample_crawled
           sample_crawled sample_crawl_returns).
  reflexivity.
Defined.

(** ** Local paths *)

(** The local path of a sub-directory extends the local path of its parent:
    the href is stripped of its slashes before [os.path.join], so the join
    never replaces the parent path by an absolute href. *)
Theorem subdirectory_path_extends_parent (local_path href : string) :
  let next_local_path :=
    PyStr.path_join local_path (PyStr.strip_slash href) in
  PyStr.startswith next_local_path local_path = true
  ∧ PyStr.startswith (PyStr.strip_slash href) "/" = false
  ∧ (next_local_path = local_path +:+ PyStr.strip_slash href
     ∨ next_local_path = local_path +:+ "/" +:+ PyStr.strip_slash href).
Proof.
  intros next_local_path.
  destruct (path_join_relative local_path (PyStr.strip_slash href)
              (strip_slash_relative href)) as [Hstart Hshape].
  auto using strip_slash_relative.
Qed.

Lemma aria2_command_dir (file_url local_dir : string)
    (aria2_options : list string) :
  aria2_command file_url local_dir aria2_options !! 3 = Some local_dir.
Proof. reflexivity. Qed.

Section Under.
Context (E : Env) (base_sync_url : string) (aria2_options : list string).
Context (root : string).

Local Abbreviation route := (route_link E base_sync_url aria2_options).
Local Abbreviation step := (process_link E base_sync_url aria2_options).
Local Abbreviation loop := (process_links E base_sync_url aria2_options).
Local Abbreviation crawl := (sync_mirror E base_sync_url aria2_options).
Local Abbreviation under := (extends_by (event_under root)).

Lemma under_download file_url local_dir st :
  PyStr.startswith local_dir root = true →
  under st (download_file_with_aria2 E file_url local_dir aria2_options st).2.
Proof.
  intros Hdir.
  assert (event_under root
            (ESubprocess (aria2_command file_url local_dir aria2_options)))
    as Hcmd.
  { intros dir. rewrite aria2_command_dir. by intros [= <-]. }
  assert (event_under root
            (EGetFile file_url
               (PyStr.path_join local_dir (PyStr.basename file_url))))
    as Hfile.
  { cbn. eapply startswith_trans; [|exact Hdir].
    apply path_join_relative, no_slash_relative, basename_no_slash. }
  unfold download_file_with_aria2, download_file_with_aiohttp.
  repeat case_match; cbn [snd];
    repeat extends_step ltac:(first [assumption | exact I]).
Qed.

Lemma under_route recurse current_url local_path href next_url st st' :
  PyStr.startswith local_path root = true →
  recursion_under root recurse →
  route recurse current_url local_path href next_url st = Some st' →
  under st st'.
Proof.
  intros Hpath Hrec. unfold route_link.
  pose proof (under_download next_url local_path st Hpath) as Hd.
  repeat case_match; intros Heq; simplify_eq;
    try (by repeat extends_step ltac:(exact I)).
  eapply Hrec; [|done].
  eapply startswith_trans; [|exact Hpath].
  apply path_join_relative, strip_slash_relative.
Qed.

Lemma under_process_links recurse current_url local_path links st st' :
  PyStr.startswith local_path root = true →
  recursion_under root recurse →
  loop recurse current_url local_path links st = Some st' →
  under st st'.
Proof.
  intros Hpath Hrec. revert st.
  induction links as [|href rest IH]; intros st; cbn [process_links].
  - intros [= <-]. apply extends_by_refl.
  - destruct (step recurse current_url local_path href st)
      as [st1|] eqn:Hl; [|done].
    intros Hrest. eapply extends_by_trans; [|by apply IH].
    revert Hl. unfold process_link. case_match.
    + intros [= <-]. apply extends_by_refl.
    + by apply under_route.
Qed.

Lemma under_sync_mirror fuel : recursion_under root (crawl fuel).
Proof.
  induction fuel as [|fuel IH]; intros url path st st' Hpath; [done|].
  cbn [sync_mirror].
  repeat case_match;
    try (intros [= <-];
         by repeat extends_step ltac:(first [assumption | exact I])).
  intros Hl%under_process_links; [|done..].
  eapply extends_by_trans; [|exact Hl].
  by repeat extends_step ltac:(first [assumption | exact I]).
Qed.

End Under.



(** A run that ends normally exits with code 0 and leaves on disk exactly
    what it holds in memory: the visited file is the Visited Set and loads
    back as it.  The run only added: the set it loaded, the local
    directories and the entries of the error log it found are all still
    there, and every other member of the Visited Set was handed to the
    dispatcher during the run. *)
Theorem run_persists_and_only_adds (E : Env) (fuel : nat)
    (base_url local_download_root : string) (aria2_options : list string)
    (d : Disk) (code : Z) (st : State) :
  async_main E fuel base_url local_download_root aria2_options d
  = Finished code st →
  code = 0%Z
  ∧ written_through st
  ∧ load_visited_urls (disk_visited (disk_of st))
    = Ok (visited_urls st, [MLoaded (size (visited_urls st))])
  ∧ (∃ loaded msgs,
       load_visited_urls (disk_visited d) = Ok (loaded, msgs)
       ∧ loaded ⊆ visited_urls st
       ∧ ∀ u, u ∈ visited_urls st → u ∈ loaded ∨ attempted u st)
  ∧ disk_dirs d ⊆ local_dirs st
  ∧ error_entries (disk_errors d) `prefix_of` error_entries (error_file st).
Proof.
  unfold async_main.
  destruct (aria2c_installed E); [|done]. cbn [negb].
  destruct (load_visited_urls (disk_visited d)) as [[loaded msgs]|] eqn:Hload;
    [|done].
  destruct (sync_mirror _ _ _ _ _ _ _) as [st0|] eqn:Hrun; [|done].
  intros [= <- <-].
  destruct (audited_sync_mirror _ _ _ _ _ _ _ _ Hrun) as [evs A].
  pose proof (audit_grows _ _ _ A) as Hg.
  split; [done|]. split; [done|]. split; [apply load_visited_document|].
  split; [|split].
  - exists loaded, msgs. split; [done|]. split.
    + apply (grows_visited_urls _ _ Hg).
    + intros u Hu. destruct (audit_added _ _ _ A u Hu) as [?|Hatt];
        [by left|right].
      unfold attempted. cbn. rewrite (audit_trace _ _ _ A).
      rewrite !elem_of_app. auto.
  - apply (grows_local_dirs _ _ Hg).
  - apply (audit_errors_kept _ _ _ A).
Qed.

Lemma run_persists_and_only_adds_witness :
  written_through
    (final_state
       (async_main Sample.world 2 "http://h/b/" "/m" [] Sample.empty_disk)).
Proof.
  apply (run_persists_and_only_adds Sample.world 2 "http://h/b/" "/m" []
           Sample.empty_disk 0).
  vm_compute. reflexivity.
Defined.



(** ** Missing members and the order of the loop *)

(** A state file without the member a loader asks for reads as empty, without
    any exception: the visited file read as an error log has no entry, and an
    error log, or any object without [visited_urls], read as a visited file
    is the empty set. *)
Theorem documents_do_not_mix (X : gset string) (u : string) (f : FileState) :
  load_error_urls (visited_document X) = []
  ∧ load_visited_urls (save_error_url u f) = Ok (∅, [MLoaded 0])
  ∧ ∀ d : gmap string (list string),
      d !! "visited_urls" = None →
      load_visited_urls (Holds d) = Ok (∅, [MLoaded 0]).
Proof.
  assert (∀ d : gmap string (list string),
            d !! "visited_urls" = None →
            load_visited_urls (Holds d) = Ok (∅, [MLoaded 0])) as Hmissing.
  { intros d Hd. unfold load_visited_urls. cbn [path_exists read_member].
    rewrite Hd. cbn [default]. cbv zeta. cbn [list_to_set].
    by rewrite size_empty. }
  split; [|split; [|exact Hmissing]].
  - unfold load_error_urls, visited_document. cbn [path_exists read_member].
    by rewrite lookup_singleton_ne.
  - apply Hmissing. by rewrite lookup_singleton_ne.
Qed.

(** The links of a page are processed strictly in order, one after the
    other: the loop over a page cut in two is the loop over the first part
    followed by the loop over the second part from the state the first one
    left, and it does not return when the first part does not. *)
Theorem link_loop_sequential (E : Env) (base_sync_url : string)
    (aria2_options : list string)
    (recurse : string → string → State → option State)
    (current_url local_path : string) (links1 links2 : list (option string))
    (st : State) :
  process_links E base_sync_url aria2_options recurse current_url local_path
    (links1 ++ links2) st
  = match process_links E base_sync_url aria2_options recurse current_url
            local_path links1 st with
    | Some st1 =>
        process_links E base_sync_url aria2_options recurse current_url
          local_path links2 st1
    | None => None
    end.
Proof.
  revert st. induction links1 as [|href links1 IH]; intros st; [done|].
  cbn [process_links app].
  destruct (process_link E base_sync_url aria2_options recurse current_url
              local_path href st) as [st1|]; [apply IH | done].
Qed.
